(** * Crop-advice backend: the advice service (src/services/llmService.js)

    A shallow embedding of [LLMService]: the regular expressions of
    [parseAdviceResponse] run on a small backtracking matcher that follows
    the ECMAScript matching rules, [generateCropAdvice] is a function of the
    provider's answer and the clock, and [generateBatchAdvice] runs
    [Promise.all] as a state machine over the order in which the per-item
    promises settle. The constructor (the client and its API key) and what
    the methods write to the console are left out: no caller can observe
    them in a result or an error. *)

From Stdlib Require Import String Ascii ZArith NArith QArith Lia Bool.
From Stdlib Require Import DecimalString.
From Stdlib Require Import Floats.SpecFloat.
From stdpp Require Import base tactics option numbers list.

Set Default Proof Using "Type".
Local Open Scope N_scope.

(** ** JavaScript strings

    A JavaScript string is a sequence of UTF-16 code units; without the [u]
    flag a regular expression works on code units too. *)

Definition char16 := N.
Definition jsstring := list char16.

(** The ASCII literals of the source, as code units. *)
Definition lit (s : string) : jsstring :=
  map N_of_ascii (list_ascii_of_string s).

Definition LF : char16 := 10.

(** [\s] of a regular expression and the characters [String.prototype.trim]
    strips: WhiteSpace and LineTerminator of ECMAScript. *)
Definition is_space (c : char16) : bool :=
  (c =? 9) || (c =? 10) || (c =? 11) || (c =? 12) || (c =? 13) || (c =? 32)
  || (c =? 160) || (c =? 5760)
  || ((8192 <=? c) && (c <=? 8202))
  || (c =? 8232) || (c =? 8233) || (c =? 8239) || (c =? 8287)
  || (c =? 12288) || (c =? 65279).

(** Canonicalize of the [i] flag (no [u] flag): a code unit is compared
    through its upper-case form.  ECMAScript keeps a code unit of 128 or more
    at 128 or more, so against the ASCII letters of this program's patterns
    only the ASCII letters themselves fold; the other code units are left as
    they are. *)
Definition canonicalize (c : char16) : char16 :=
  if (97 <=? c) && (c <=? 122) then c - 32 else c.

Fixpoint skip_space (s : jsstring) : jsstring :=
  match s with
  | c :: t => if is_space c then skip_space t else s
  | [] => []
  end.

(** [String.prototype.trim]. *)
Definition trim (s : jsstring) : jsstring :=
  rev (skip_space (rev (skip_space s))).

(** ** Regular expressions

    The constructs the six patterns of [parseAdviceResponse] use. A character
    test stands for a literal character, [.] and [\s]; the patterns have one
    capture group, so the matcher keeps one capture. *)

Inductive regex : Type :=
| REmpty
| RChar (p : char16 -> bool)
| RSeq (a b : regex)
| RAlt (a b : regex)
| RStar (greedy : bool) (a : regex)
| RGroup (a : regex)
| RLookahead (a : regex)
| REnd.

(** The state of a match: the input that is left and capture 1. *)
Record mstate : Type := MState { rest : jsstring; cap : option jsstring }.

Definition or_else {A} (x y : option A) : option A :=
  match x with Some _ => x | None => y end.

(** The iteration of a star over the matcher [ma] of its body. An iteration
    that consumes nothing is refused, as ECMAScript does, so there are at
    most as many iterations as characters left: [n] starts above that. *)
Fixpoint star_loop (ma : mstate -> (mstate -> option mstate) -> option mstate)
  (greedy : bool) (k : mstate -> option mstate) (n : nat) (s : mstate)
  {struct n} : option mstate :=
  match n with
  | O => k s
  | S n' =>
      let again :=
        ma s (fun s' =>
          if (length (rest s') <? length (rest s))%nat
          then star_loop ma greedy k n' s' else None) in
      if greedy then or_else again (k s) else or_else (k s) again
  end.

(** The backtracking matcher, in continuation-passing style as in the
    ECMAScript specification: [m r s k] matches [r] at [s] and hands each
    way of matching it, in priority order, to [k] until [k] accepts one.
    [$] without the [m] flag holds at the end of the input only; a
    lookahead keeps the position and cannot be re-entered. *)
Fixpoint m (r : regex) (s : mstate) (k : mstate -> option mstate)
  {struct r} : option mstate :=
  match r with
  | REmpty => k s
  | RChar p =>
      match rest s with
      | c :: t => if p c then k (MState t (cap s)) else None
      | [] => None
      end
  | RSeq a b => m a s (fun s' => m b s' k)
  | RAlt a b => or_else (m a s k) (m b s k)
  | RStar greedy a => star_loop (m a) greedy k (S (length (rest s))) s
  | RGroup a =>
      m a s (fun s' =>
        k (MState (rest s')
             (Some (take (length (rest s) - length (rest s')) (rest s)))))
  | RLookahead a =>
      match m a s Some with
      | Some s' => k (MState (rest s) (cap s'))
      | None => None
      end
  | REnd => match rest s with [] => k s | _ :: _ => None end
  end.

(** A literal under the [i] flag. *)
Definition ichar (c : char16) : regex :=
  RChar (fun x => canonicalize x =? canonicalize c).

Definition ilit (l : jsstring) : regex :=
  foldr (fun c r => RSeq (ichar c) r) REmpty l.

Definition rseq (rs : list regex) : regex := foldr RSeq REmpty rs.

(** [.] under the [s] flag. *)
Definition dot : regex := RChar (fun _ => true).
Definition space : regex := RChar is_space.

(** [r+?] is one [r] and then [r*?]. *)
Definition plus_lazy (r : regex) : regex := RSeq r (RStar false r).

(** [RegExp.prototype.exec] with [lastIndex] 0 and no [g] flag: the first
    start index, from the left, at which the pattern matches. The result is
    capture 1 of the match array ([None] for a group that took no part). *)
Fixpoint exec (r : regex) (input : jsstring) : option (option jsstring) :=
  match m r (MState input None) Some with
  | Some s => Some (cap s)
  | None =>
      match input with
      | [] => None
      | _ :: t => exec r t
      end
  end.

(** ** The six patterns of [parseAdviceResponse]

    All carry the flags [i] and [s]. *)

(** [/CAUSE:\s*(.+?)(?=\n\n|SYMPTOMS:|$)/is] *)
Definition causeRe : regex :=
  rseq [ilit (lit "CAUSE:"); RStar true space; RGroup (plus_lazy dot);
        RLookahead (RAlt (ilit [LF; LF]) (RAlt (ilit (lit "SYMPTOMS:")) REnd))].

(** [/SYMPTOMS:\s*(.+?)(?=\n\n|IMMEDIATE:|$)/is] *)
Definition symptomsRe : regex :=
  rseq [ilit (lit "SYMPTOMS:"); RStar true space; RGroup (plus_lazy dot);
        RLookahead (RAlt (ilit [LF; LF]) (RAlt (ilit (lit "IMMEDIATE:")) REnd))].

(** [/IMMEDIATE:\s*(.+?)(?=\n\n|CHEMICAL:|$)/is] *)
Definition immediateRe : regex :=
  rseq [ilit (lit "IMMEDIATE:"); RStar true space; RGroup (plus_lazy dot);
        RLookahead (RAlt (ilit [LF; LF]) (RAlt (ilit (lit "CHEMICAL:")) REnd))].

(** [/CHEMICAL:\s*(.+?)(?=\n\n|ORGANIC:|$)/is] *)
Definition chemicalRe : regex :=
  rseq [ilit (lit "CHEMICAL:"); RStar true space; RGroup (plus_lazy dot);
        RLookahead (RAlt (ilit [LF; LF]) (RAlt (ilit (lit "ORGANIC:")) REnd))].

(** [/ORGANIC:\s*(.+?)(?=\n\n|PREVENTION:|$)/is] *)
Definition organicRe : regex :=
  rseq [ilit (lit "ORGANIC:"); RStar true space; RGroup (plus_lazy dot);
        RLookahead (RAlt (ilit [LF; LF]) (RAlt (ilit (lit "PREVENTION:")) REnd))].

(** [/PREVENTION:\s*(.+?)(?=\n\n|$)/is] *)
Definition preventionRe : regex :=
  rseq [ilit (lit "PREVENTION:"); RStar true space; RGroup (plus_lazy dot);
        RLookahead (RAlt (ilit [LF; LF]) REnd)].

(** ** Values, errors and results *)

(** What [response.text] and the argument of [parseAdviceResponse] can be:
    the provider's SDK types the reply text as a string or [undefined]. *)
Inductive value : Type :=
| VUndefined
| VNull
| VString (s : jsstring).

(** A thrown error: its [name] (the kind of error: ["Error"] for one made
    by [new Error], the class name for the errors of a library), its
    [message] and its [status] property, when it has one. *)
Record js_error : Type := JsError {
  name : jsstring;
  message : value;
  status : option N
}.

(** [new Error(msg)]. *)
Definition Error (msg : jsstring) : js_error :=
  JsError (lit "Error") (VString msg) None.

(** The [TypeError] of the runtime for a property read on [undefined] or
    [null]; its message depends on the engine and is never looked at. *)
Definition TypeError : js_error :=
  JsError (lit "TypeError") (VString (lit "Cannot read properties")) None.

Inductive result (A : Type) : Type :=
| Ok (a : A)
| Throw (e : js_error).
Arguments Ok {A} a.
Arguments Throw {A} e.

#[global] Instance result_ret : MRet result := fun A a => Ok a.
#[global] Instance result_bind : MBind result := fun A B f x =>
  match x with Ok a => f a | Throw e => Throw e end.

(** [try { body } catch (error) { handler error }]. *)
Definition try_catch {A} (body : result A) (handler : js_error -> result A)
  : result A :=
  match body with Ok a => Ok a | Throw e => handler e end.

(** ** The advice object *)

Record Metadata : Type := {
  md_crop : jsstring;
  md_disease : jsstring;
  md_severity : jsstring;
  md_confidence : spec_float;
  generatedAt : jsstring;
  model : jsstring
}.

Record Advice : Type := {
  cause : jsstring;
  symptoms : jsstring;
  immediate : jsstring;
  chemical : jsstring;
  organic : jsstring;
  prevention : jsstring;
  metadata : option Metadata
}.

(** [text.match(re)]: the match array ([Some], here its capture 1) or [null]
    ([None]); on [undefined] and [null] the property read throws. *)
Definition str_match (text : value) (re : regex)
  : result (option (option jsstring)) :=
  match text with
  | VString s => Ok (exec re s)
  | VUndefined | VNull => Throw TypeError
  end.

(** [mt ? mt[1].trim() : fallback]; [.trim()] on a capture that is
    [undefined] throws. *)
Definition field_of (mt : option (option jsstring)) (fallback : jsstring)
  : result jsstring :=
  match mt with
  | Some (Some c) => Ok (trim c)
  | Some None => Throw TypeError
  | None => Ok fallback
  end.

Definition parseAdviceResponse (text : value) : result Advice :=
  try_catch
    (causeMatch ← str_match text causeRe;
     symptomsMatch ← str_match text symptomsRe;
     immediateMatch ← str_match text immediateRe;
     chemicalMatch ← str_match text chemicalRe;
     organicMatch ← str_match text organicRe;
     preventionMatch ← str_match text preventionRe;
     cause ← field_of causeMatch (lit "Unable to determine cause");
     symptoms ← field_of symptomsMatch (lit "Unable to determine symptoms");
     immediate ← field_of immediateMatch (lit "Consult agricultural expert");
     chemical ← field_of chemicalMatch (lit "Consult local agriculture office");
     organic ← field_of organicMatch (lit "Neem oil spray recommended");
     prevention ← field_of preventionMatch (lit "Maintain proper plant hygiene");
     Ok {| cause := cause; symptoms := symptoms; immediate := immediate;
           chemical := chemical; organic := organic; prevention := prevention;
           metadata := None |})
    (fun _ => Throw (Error (lit "Failed to parse AI response"))).

(** ** Numbers

    A JavaScript number is an IEEE 754 binary64 value; [*] is the correctly
    rounded product. *)

Definition number := spec_float.

Definition number_mul (x y : number) : number := SFmul 53 1024 x y.

(** The literal [100]. *)
Definition hundred : number := S754_finite false 7036874417766400 (-46).

(** The decimal digits of a natural number, ["0"] for zero. *)
Definition decimal (n : Z) : jsstring :=
  lit (NilEmpty.string_of_uint (N.to_uint (Z.to_N n))).

(** The integer nearest to [mant * 2 ^ e], the larger one of two. *)
Definition round_half_up (mant : positive) (e : Z) : Z :=
  if (0 <=? e)%Z then (Z.pos mant * 2 ^ e)%Z
  else ((2 * Z.pos mant + 2 ^ (- e)) / 2 ^ (- e + 1))%Z.

Definition at_least_1e21 (mant : positive) (e : Z) : bool :=
  if (0 <=? e)%Z then (10 ^ 21 <=? Z.pos mant * 2 ^ e)%Z
  else (10 ^ 21 * 2 ^ (- e) <=? Z.pos mant)%Z.

(** ** The detection record, the request and the provider *)

Record DetectionInput : Type := {
  crop : jsstring;
  disease : jsstring;
  severity : jsstring;
  confidence : number
}.

(** [this.modelName]. *)
Definition modelName : jsstring := lit "gemini-2.5-flash".

(** The argument of [this.ai.models.generateContent]: the model and one
    content of role [user] with one text part. *)
Record Request : Type := { req_model : jsstring; req_text : jsstring }.

(** The provider, as the service sees it: the awaited call throws, or gives a
    response whose [text] is read. *)
Definition Provider := Request -> result value.

(** [String(v)] of a template literal. *)
Definition ToString (v : value) : jsstring :=
  match v with
  | VUndefined => lit "undefined"
  | VNull => lit "null"
  | VString s => s
  end.

(** ** Generating advice *)

Section Runtime.

(** [Number::toString] of the runtime, which [toFixed] falls back to for a
    finite number of magnitude 10^21 or more; its digits are not modelled. *)
Variable Number_toString : number -> jsstring.

(** [x.toFixed(0)], step by step as in ECMAScript: a value that is not finite
    prints as [Number::toString] does; otherwise the sign, and the magnitude
    either through [Number::toString] (from 10^21 on) or as the digits of the
    nearest integer, the larger of two. *)
Definition toFixed0 (x : number) : jsstring :=
  match x with
  | S754_nan => lit "NaN"
  | S754_infinity false => lit "Infinity"
  | S754_infinity true => lit "-Infinity"
  | S754_zero _ => lit "0"
  | S754_finite sign mant e =>
      (if sign then lit "-" else []) ++
      (if at_least_1e21 mant e
       then Number_toString (S754_finite false mant e)
       else decimal (round_half_up mant e))
  end.

(** [(confidence * 100).toFixed(0)] followed by the percent sign. *)
Definition confidence_percent (c : number) : jsstring :=
  toFixed0 (number_mul c hundred) ++ lit "%".

Definition prompt_format : jsstring := lit ".

Provide concise, practical advice in the following exact format (keep each point to one short sentence):

CAUSE: [State the primary cause in simple terms]

SYMPTOMS: [List 2-3 visible signs]

IMMEDIATE: [One quick action to stop the spread]

CHEMICAL: [One common pesticide/fungicide with dosage]

ORGANIC: [One natural remedy]

PREVENTION: [One simple tip to avoid future occurrence]

Keep the language simple and practical for farmers. Focus on actionable advice. If confidence is below 60%, mention a mild caution in the IMMEDIATE step.".

(** The template literal of [generateCropAdvice]. *)
Definition build_prompt (d : DetectionInput) : jsstring :=
  lit "You are an expert agricultural advisor. A farmer has a " ++ crop d
  ++ lit " plant infected with " ++ disease d
  ++ lit ". The severity is " ++ severity d
  ++ lit " and detection confidence is " ++ confidence_percent (confidence d)
  ++ prompt_format.

(** [generateCropAdvice]: [ai] is the provider's answer to this call and
    [now] is [new Date().toISOString()] at the time the reply is parsed.
    What the method writes to the console is left out. *)
Definition generateCropAdvice (ai : Provider) (now : jsstring)
  (diseaseData : DetectionInput) : result Advice :=
  let prompt := build_prompt diseaseData in
  try_catch
    (output ← ai {| req_model := modelName; req_text := prompt |};
     advice ← parseAdviceResponse output;
     Ok {| cause := cause advice; symptoms := symptoms advice;
           immediate := immediate advice; chemical := chemical advice;
           organic := organic advice; prevention := prevention advice;
           metadata := Some {| md_crop := crop diseaseData;
                               md_disease := disease diseaseData;
                               md_severity := severity diseaseData;
                               md_confidence := confidence diseaseData;
                               generatedAt := now;
                               model := modelName |} |})
    (fun error =>
       Throw (Error (lit "Failed to generate advice from Gemini AI: "
                     ++ ToString (message error)))).

End Runtime.

(** ** [Promise.all]

    The promises of a batch settle one by one, in an order the service does
    not control. [Promise.all] keeps the values by index and a count of the
    promises still awaited; it fulfils with the values when the count reaches
    0 and rejects at the first rejection; once settled it stays so. *)

Record all_state (A : Type) : Type := AllState {
  values : list (option A);
  remainingElementsCount : nat;
  settled : option (result (list A))
}.
Arguments AllState {A}.
Arguments values {A}.
Arguments remainingElementsCount {A}.
Arguments settled {A}.

Definition all_init {A} (n : nat) : all_state A :=
  AllState (replicate n None) n
    (if decide (n = 0%nat) then Some (Ok []) else None).

(** Promise [i] settles. A slot of [values] that was never written would be
    [undefined] in the result array; when every promise settles once there
    is none left as the count reaches 0. *)
Definition all_settle {A} (promises : list (result A)) (st : all_state A)
  (i : nat) : all_state A :=
  match promises !! i with
  | Some (Ok x) =>
      let vs := <[i := Some x]> (values st) in
      let n := pred (remainingElementsCount st) in
      AllState vs n
        (or_else (settled st)
           (if decide (n = 0%nat) then Some (Ok (omap id vs)) else None))
  | Some (Throw e) =>
      AllState (values st) (remainingElementsCount st)
        (or_else (settled st) (Some (Throw e)))
  | None => st
  end.

(** The state of [Promise.all(promises)] once the promises named in [order]
    have settled, in that order: [None] while it is pending. *)
Definition Promise_all {A} (promises : list (result A)) (order : list nat)
  : option (result (list A)) :=
  settled (foldl (all_settle promises) (all_init (length promises)) order).

(** [generateBatchAdvice]: call [i] of the batch gets the provider's answer
    [ai i] and reads the clock at [clock i]. *)
Definition generateBatchAdvice (Number_toString : number -> jsstring)
  (ai : nat -> Provider) (clock : nat -> jsstring)
  (order : list nat) (diseaseDataArray : list DetectionInput)
  : option (result (list Advice)) :=
  let promises :=
    imap (fun i data => generateCropAdvice Number_toString (ai i) (clock i) data)
      diseaseDataArray in
  Promise_all promises order.

(** ** The checks of the HTTP boundary (routes of the crop-advice API) *)

(** The literals [1] and [0]. *)
Definition one : number := S754_finite false 4503599627370496 (-52).
Definition zero : number := S754_zero false.

(** [!crop || !disease] and [confidence < 0 || confidence > 1] both fail. *)
Definition valid_DetectionInput (d : DetectionInput) : bool :=
  negb (bool_decide (crop d = []) || bool_decide (disease d = []))
  && negb (SFltb (confidence d) zero || SFltb one (confidence d)).

(** ** The routes (POST /api/crop-advice and /api/crop-advice/batch)

    The bodies are those a client of the documented API sends: [crop],
    [disease] and [severity] are strings, [null] or absent, and [confidence]
    is a number, [null] or absent. The handlers do not check the types of
    these properties, and bodies of another shape are outside this model:
    a [confidence] that is a string, a boolean, an array or an object is
    compared after conversion to a number and passed on as it is (the string
    ["abc"] passes both comparisons and the prompt then reads [NaN%]), and a
    [crop], [disease] or [severity] that is an object whose conversion to a
    string throws makes the handler answer 500 with the message of that
    [TypeError]. Every statement about the routes below is a statement about
    bodies of the documented shape. *)

(** A property that should hold a number. *)
Inductive num_field : Type :=
| NumAbsent
| NumNull
| NumIs (x : number).

Record AdviceBody : Type := {
  body_crop : value;
  body_disease : value;
  body_severity : value;
  body_confidence : num_field
}.

(** Truthiness of a text: a string that is not empty. *)
Definition truthy (v : value) : bool :=
  match v with
  | VString (_ :: _) => true
  | VString [] | VUndefined | VNull => false
  end.

(** [v || d] for a text [v] and a string literal [d]. *)
Definition text_or (v : value) (d : jsstring) : jsstring :=
  match v with
  | VString (c :: s) => c :: s
  | VString [] | VUndefined | VNull => d
  end.

(** The string a text is once [!v] has failed. *)
Definition text_of (v : value) : jsstring :=
  match v with
  | VString s => s
  | VUndefined | VNull => []
  end.

(** [ToNumber], as the comparisons [<] and [>] apply it. *)
Definition to_number (c : num_field) : number :=
  match c with
  | NumAbsent => S754_nan
  | NumNull => zero
  | NumIs x => x
  end.

(** [confidence || 0.0]: zero, [NaN], [null] and [undefined] are falsy. *)
Definition number_or_zero (c : num_field) : number :=
  match c with
  | NumIs (S754_zero _) | NumIs S754_nan | NumNull | NumAbsent => zero
  | NumIs x => x
  end.

(** What [res.status(...).json(...)] sends: the status and the properties
    [success], [data] and [error] of the payload. *)
Record Response (A : Type) : Type := {
  http_status : N;
  res_success : bool;
  res_data : option A;
  res_error : option jsstring
}.
Arguments http_status {A}.
Arguments res_success {A}.
Arguments res_data {A}.
Arguments res_error {A}.

(** [res.json({ success: true, data })]. *)
Definition send_data {A} (data : A) : Response A :=
  {| http_status := 200; res_success := true; res_data := Some data;
     res_error := None |}.

(** [res.status(code).json({ success: false, error })]. *)
Definition send_error {A} (code : N) (error : jsstring) : Response A :=
  {| http_status := code; res_success := false; res_data := None;
     res_error := Some error |}.

(** The object the single route hands to [generateCropAdvice]. *)
Definition service_input (body : AdviceBody) : DetectionInput :=
  {| crop := text_of (body_crop body);
     disease := text_of (body_disease body);
     severity := text_or (body_severity body) (lit "unknown");
     confidence := number_or_zero (body_confidence body) |}.

(** The handler of POST /crop-advice. *)
Definition post_crop_advice (Number_toString : number -> jsstring)
  (ai : Provider) (now : jsstring) (body : AdviceBody) : Response Advice :=
  if negb (truthy (body_crop body)) || negb (truthy (body_disease body))
  then send_error 400
         (lit "Missing required fields: crop and disease are required")
  else if match body_confidence body with NumAbsent => false | _ => true end
          && (SFltb (to_number (body_confidence body)) zero
              || SFltb one (to_number (body_confidence body)))
  then send_error 400 (lit "Confidence must be between 0 and 1")
  else
    match generateCropAdvice Number_toString ai now (service_input body) with
    | Ok advice => send_data advice
    | Throw error =>
        send_error 500
          (text_or (message error) (lit "Failed to generate crop advice"))
    end.

(** An entry of the batch body, of the documented shape. The batch route
    fills in no defaults: the entries modelled carry their severity, a
    string, and their confidence, a number; [crop] and [disease] are strings,
    [null] or absent. Entries of another shape are outside this model (an
    entry whose severity is an object whose conversion to a string throws
    rejects its call with that [TypeError], which the service does not
    wrap). *)
Record Entry : Type := {
  entry_crop : value;
  entry_disease : value;
  entry_severity : jsstring;
  entry_confidence : number
}.

(** The entry as [generateCropAdvice] reads it. *)
Definition entry_input (e : Entry) : DetectionInput :=
  {| crop := text_of (entry_crop e); disease := text_of (entry_disease e);
     severity := entry_severity e; confidence := entry_confidence e |}.

(** The handler of POST /crop-advice/batch. [diseases] is [None] when the
    property is absent or no array; the handler answers once the promise of
    the batch has settled ([None] before). *)
Definition post_crop_advice_batch (Number_toString : number -> jsstring)
  (ai : nat -> Provider) (clock : nat -> jsstring) (order : list nat)
  (diseases : option (list Entry)) : option (Response (list Advice)) :=
  match diseases with
  | None | Some [] =>
      Some (send_error 400 (lit "Missing or invalid diseases array"))
  | Some entries =>
      if existsb (fun e => negb (truthy (entry_crop e))
                           || negb (truthy (entry_disease e))) entries
      then Some (send_error 400
                   (lit "Each disease entry must have crop and disease fields"))
      else
        match generateBatchAdvice Number_toString ai clock order
                (map entry_input entries) with
        | None => None
        | Some (Ok adviceList) => Some (send_data adviceList)
        | Some (Throw error) =>
            Some (send_error 500
                    (text_or (message error)
                       (lit "Failed to generate batch crop advice")))
        end
  end.

(** ** The CORS check of the server *)

#[global] Instance value_eq_dec : EqDecision value.
Proof. solve_decision. Defined.

(** [allowedOrigins]: the three fixed origins and [process.env.CORS_ORIGIN],
    filtered by [Boolean]. *)
Definition allowedOrigins (CORS_ORIGIN : value) : list value :=
  List.filter truthy
    [VString (lit "http://localhost:5173");
     VString (lit "http://localhost:3000");
     VString (lit "https://swe-ai-crop.vercel.app");
     CORS_ORIGIN].

(** The [origin] function given to [cors]: [Ok true] is [callback(null,
    true)], a thrown error is [callback(new Error(...))]. *)
Definition cors_origin (CORS_ORIGIN : value) (origin : value) : result bool :=
  if negb (truthy origin) then Ok true
  else if bool_decide (origin ∈ allowedOrigins CORS_ORIGIN) then Ok true
  else Throw (Error (lit "Not allowed by CORS")).

(** * The vocabulary of the statements

    ** The fields of the advice, by name *)

Inductive field : Type :=
| Cause | Symptoms | Immediate | Chemical | Organic | Prevention.

Definition label (f : field) : jsstring :=
  match f with
  | Cause => lit "CAUSE:"
  | Symptoms => lit "SYMPTOMS:"
  | Immediate => lit "IMMEDIATE:"
  | Chemical => lit "CHEMICAL:"
  | Organic => lit "ORGANIC:"
  | Prevention => lit "PREVENTION:"
  end.

(** The label a field's pattern stops at, besides a blank line and the end
    of the text; the last pattern has none. *)
Definition next_label (f : field) : option jsstring :=
  match f with
  | Cause => Some (lit "SYMPTOMS:")
  | Symptoms => Some (lit "IMMEDIATE:")
  | Immediate => Some (lit "CHEMICAL:")
  | Chemical => Some (lit "ORGANIC:")
  | Organic => Some (lit "PREVENTION:")
  | Prevention => None
  end.

Definition pattern (f : field) : regex :=
  match f with
  | Cause => causeRe
  | Symptoms => symptomsRe
  | Immediate => immediateRe
  | Chemical => chemicalRe
  | Organic => organicRe
  | Prevention => preventionRe
  end.

Definition fallback (f : field) : jsstring :=
  match f with
  | Cause => lit "Unable to determine cause"
  | Symptoms => lit "Unable to determine symptoms"
  | Immediate => lit "Consult agricultural expert"
  | Chemical => lit "Consult local agriculture office"
  | Organic => lit "Neem oil spray recommended"
  | Prevention => lit "Maintain proper plant hygiene"
  end.

Definition get (f : field) (a : Advice) : jsstring :=
  match f with
  | Cause => cause a
  | Symptoms => symptoms a
  | Immediate => immediate a
  | Chemical => chemical a
  | Organic => organic a
  | Prevention => prevention a
  end.

(** ** What the patterns compute

    The six patterns have one shape; its matches are described by plain
    functions on the text, and the matcher is shown below to compute
    them. *)

(** The literals a field's lookahead tries before the end of the text. *)
Definition stops (f : field) : list jsstring :=
  [LF; LF] :: match next_label f with Some l => [l] | None => [] end.

Definition boundary_re (ls : list jsstring) : regex :=
  foldr (fun l r => RAlt (ilit l) r) REnd ls.

Definition section_re (lbl : jsstring) (ls : list jsstring) : regex :=
  rseq [ilit lbl; RStar true space; RGroup (plus_lazy dot);
        RLookahead (boundary_re ls)].

(** [t] starts with [l], letter case aside. *)
Fixpoint starts_ci (l t : jsstring) : bool :=
  match l, t with
  | [], _ => true
  | c :: l', x :: t' => (canonicalize x =? canonicalize c) && starts_ci l' t'
  | _ :: _, [] => false
  end.

(** [t] is at a stop: one of [ls] starts there, or the text ends. *)
Definition at_boundary (ls : list jsstring) (t : jsstring) : bool :=
  existsb (fun l => starts_ci l t) ls || bool_decide (t = []).

(** The text up to the first stop. *)
Fixpoint until_stop (ls : list jsstring) (t : jsstring) : jsstring :=
  if at_boundary ls t then []
  else match t with
       | [] => []
       | x :: t' => x :: until_stop ls t'
       end.

(** The capture of a match whose label ends where [t] starts: the group
    takes at least one character, up to the first stop after it; white space
    before it is skipped as far as that leaves a match (in text that is white
    space only, backtracking gives its last character to the group). *)
Fixpoint capture_after (ls : list jsstring) (t : jsstring)
  : option jsstring :=
  match t with
  | [] => None
  | x :: t' =>
      let here := Some (x :: until_stop ls t') in
      if is_space x then or_else (capture_after ls t') here else here
  end.

(** The capture of a match that starts where [t] starts, and of the first
    match in [t]. *)
Definition match_here (lbl : jsstring) (ls : list jsstring) (t : jsstring)
  : option jsstring :=
  if starts_ci lbl t then capture_after ls (drop (length lbl) t) else None.

Fixpoint find_section (lbl : jsstring) (ls : list jsstring) (t : jsstring)
  : option jsstring :=
  match match_here lbl ls t with
  | Some c => Some c
  | None =>
      match t with
      | [] => None
      | _ :: t' => find_section lbl ls t'
      end
  end.

(** The attempts of a lazy and of a greedy star over single characters. *)
Fixpoint lazy_scan (k : mstate -> option mstate) (c : option jsstring)
  (t : jsstring) : option mstate :=
  or_else (k (MState t c))
    match t with
    | [] => None
    | _ :: t' => lazy_scan k c t'
    end.

Fixpoint greedy_scan (p : char16 -> bool) (k : mstate -> option mstate)
  (c : option jsstring) (t : jsstring) : option mstate :=
  match t with
  | x :: t' =>
      if p x then or_else (greedy_scan p k c t') (k (MState t c))
      else k (MState t c)
  | [] => k (MState [] c)
  end.

(** The field a reply text gives, as the patterns compute it. *)
Definition extract (f : field) (text : jsstring) : jsstring :=
  match find_section (label f) (stops f) text with
  | Some c => trim c
  | None => fallback f
  end.

(** ** Occurrences of a label *)

(** [l] occurs somewhere in [t], letter case aside. *)
Fixpoint occurs_ci (l t : jsstring) : bool :=
  starts_ci l t ||
  match t with
  | [] => false
  | _ :: t' => occurs_ci l t'
  end.

(** The text after the first occurrence of [l] in [t]. *)
Fixpoint after_label (l t : jsstring) : option jsstring :=
  if starts_ci l t then Some (drop (length l) t)
  else match t with
       | [] => None
       | _ :: t' => after_label l t'
       end.

(** ** The parsing contract in the specification's words

    The substring that follows a label, up to but not including a blank
    line, the next label or the end of the text, trimmed. *)

Definition blank_line_at (t : jsstring) : bool :=
  match t with
  | a :: b :: _ => (a =? LF) && (b =? LF)
  | _ => false
  end.

Definition next_label_at (f : field) (t : jsstring) : bool :=
  match next_label f with
  | Some l => starts_ci l t
  | None => false
  end.

Fixpoint spec_section_text (f : field) (t : jsstring) : jsstring :=
  match t with
  | [] => []
  | x :: t' =>
      if blank_line_at t || next_label_at f t then []
      else x :: spec_section_text f t'
  end.

Definition spec_extract (f : field) (text : jsstring) : option jsstring :=
  (fun T => trim (spec_section_text f T)) <$> after_label (label f) text.

(** Some character of [s] is not white space. *)
Definition has_content (s : jsstring) : bool := negb (forallb is_space s).

(** The text before and after the first occurrence of [l] in [t]. *)
Fixpoint split_label (l t : jsstring) : option (jsstring * jsstring) :=
  if starts_ci l t then Some ([], drop (length l) t)
  else match t with
       | [] => None
       | x :: t' => (fun p => (x :: p.1, p.2)) <$> split_label l t'
       end.

(** The text holds the labels [fs] in that order, with content before each
    of them and after the last. *)
Fixpoint sections_in_order (fs : list field) (t : jsstring) : bool :=
  match fs with
  | [] => has_content t
  | f :: fs' =>
      match split_label (label f) t with
      | Some (before, after) => has_content before && sections_in_order fs' after
      | None => false
      end
  end.

(** The text holds the six labels in order, with content between them and
    after the last. *)
Definition six_labels_in_order (text : jsstring) : bool :=
  match after_label (label Cause) text with
  | Some T =>
      sections_in_order [Symptoms; Immediate; Chemical; Organic; Prevention] T
  | None => false
  end.

(** What the patterns take instead: the text from the first character after
    the label that is not white space, up to the first stop after that
    character. *)
Definition section_text (f : field) (T : jsstring) : jsstring :=
  match skip_space T with
  | [] => []
  | x :: u => x :: spec_section_text f u
  end.

(** ** Requests, metadata, promises and values of numbers *)

(** The request and the metadata block of [generateCropAdvice]. *)
Definition request_of (nts : number -> jsstring) (d : DetectionInput)
  : Request :=
  {| req_model := modelName; req_text := build_prompt nts d |}.

Definition metadata_of (d : DetectionInput) (now : jsstring) : Metadata :=
  {| md_crop := crop d; md_disease := disease d; md_severity := severity d;
     md_confidence := confidence d; generatedAt := now;
     model := lit "gemini-2.5-flash" |}.

(** The value a fulfilled promise carries. *)
Definition value_of {A} (r : result A) : option A :=
  match r with Ok x => Some x | Throw _ => None end.

(** The state of [Promise.all] once the promises [done], all of them
    fulfilled, have settled. *)
Definition all_inv {A} (ps : list (result A)) (done : list nat)
  (st : all_state A) : Prop :=
  values st = imap (fun j r => if decide (j ∈ done) then value_of r else None) ps
  /\ remainingElementsCount st = (length ps - length done)%nat
  /\ settled st = if decide (length done < length ps)%nat then None
                  else Some (Ok (omap id (values st))).

(** The rational value of a finite number. *)
Definition number_value (x : number) : option Q :=
  match x with
  | S754_zero _ => Some 0%Q
  | S754_finite sign mant e =>
      let mag := if (0 <=? e)%Z then inject_Z (Z.pos mant * 2 ^ e)
                 else Z.pos mant # Z.to_pos (2 ^ (- e)) in
      Some (if sign then (- mag)%Q else mag)
  | S754_infinity _ | S754_nan => None
  end.

(** The prompt up to the confidence. *)
Definition prompt_head (d : DetectionInput) : jsstring :=
  lit "You are an expert agricultural advisor. A farmer has a " ++ crop d
  ++ lit " plant infected with " ++ disease d
  ++ lit ". The severity is " ++ severity d
  ++ lit " and detection confidence is ".

(** ** The reply format the prompt asks for

    The six labels, each followed by a blank and its text, with a blank line
    between the sections. *)

Definition SP : char16 := 32.

Definition all_fields : list field :=
  [Cause; Symptoms; Immediate; Chemical; Organic; Prevention].

Definition render_reply (c : field -> jsstring) : jsstring :=
  label Cause ++ SP :: c Cause ++ [LF; LF]
  ++ label Symptoms ++ SP :: c Symptoms ++ [LF; LF]
  ++ label Immediate ++ SP :: c Immediate ++ [LF; LF]
  ++ label Chemical ++ SP :: c Chemical ++ [LF; LF]
  ++ label Organic ++ SP :: c Organic ++ [LF; LF]
  ++ label Prevention ++ SP :: c Prevention.

(** The bracketed hints of the prompt's format. *)
Definition prompt_hints (f : field) : jsstring :=
  match f with
  | Cause => lit "[State the primary cause in simple terms]"
  | Symptoms => lit "[List 2-3 visible signs]"
  | Immediate => lit "[One quick action to stop the spread]"
  | Chemical => lit "[One common pesticide/fungicide with dosage]"
  | Organic => lit "[One natural remedy]"
  | Prevention => lit "[One simple tip to avoid future occurrence]"
  end.

(** A text that can stand in a section: not empty, without white space
    around it, without a blank line and without any of the six labels. *)
Definition plain (s : jsstring) : bool :=
  negb (bool_decide (s = []))
  && bool_decide (trim s = s)
  && negb (occurs_ci [LF; LF] s)
  && forallb (fun g => negb (occurs_ci (label g) s)) all_fields.

(** The character [s] is none of [l], letter case aside. *)
Definition sep_free (l : jsstring) (s : char16) : bool :=
  forallb (fun c => negb (canonicalize s =? canonicalize c)) l.

(** In [pre ++ t], no occurrence of [l] starts within [pre]. *)
Fixpoint no_label_starts (l pre t : jsstring) : bool :=
  match pre with
  | [] => true
  | _ :: pre' => negb (starts_ci l (pre ++ t)) && no_label_starts l pre' t
  end.

(** The body with the defaults of the single route written out. *)
Definition with_defaults (body : AdviceBody) : AdviceBody :=
  {| body_crop := body_crop body; body_disease := body_disease body;
     body_severity := VString (text_or (body_severity body) (lit "unknown"));
     body_confidence := NumIs (number_or_zero (body_confidence body)) |}.

(** The entry of a batch as a body of the single route. *)
Definition entry_body (e : Entry) : AdviceBody :=
  {| body_crop := entry_crop e; body_disease := entry_disease e;
     body_severity := VString (entry_severity e);
     body_confidence := NumIs (entry_confidence e) |}.

(** ** The inputs of the examples *)

(** The number the literal [0.93] denotes. *)
Definition conf_0_93 : number := S754_finite false 8376695306909123 (-53).

Definition tomato : DetectionInput :=
  {| crop := lit "Tomato"; disease := lit "Early Blight";
     severity := lit "medium"; confidence := conf_0_93 |}.

Definition potato : DetectionInput :=
  {| crop := lit "Potato"; disease := lit "Late Blight";
     severity := lit "unknown"; confidence := zero |}.

(** A [Number::toString] for the examples, which never reach it. *)
Definition no_toString : number -> jsstring := fun _ => [].

(** The clock reading of the examples. *)
Definition now0 : jsstring := lit "2025-01-15T10:30:00.000Z".

(** A reply with the six sections, and one whose first label is followed
    by a blank line. *)
Definition reply_six : jsstring :=
  lit "CAUSE: Fungus in the soil

SYMPTOMS: Brown spots,
yellow leaves

IMMEDIATE: Remove leaves
chemical:   Mancozeb 2g/L   ORGANIC: Neem oil

PREVENTION: Rotate crops
".

Definition ce_blank_line : jsstring :=
  lit "CAUSE:

Fungus in the soil

SYMPTOMS: Brown spots

IMMEDIATE: Remove leaves

CHEMICAL: Mancozeb

ORGANIC: Neem oil

PREVENTION: Rotate crops".

(** The advice for [tomato] from [reply_six] at [now0]. *)
Definition tomato_advice : Advice :=
  {| cause := lit "Fungus in the soil";
     symptoms := lit "Brown spots," ++ [LF] ++ lit "yellow leaves";
     immediate := lit "Remove leaves";
     chemical := lit "Mancozeb 2g/L";
     organic := lit "Neem oil";
     prevention := lit "Rotate crops";
     metadata := Some (metadata_of tomato now0) |}.

(** The errors of the examples. *)
Definition quota_error : js_error :=
  JsError (lit "ApiError") (VString (lit "quota exceeded")) (Some 429).

(** The provider of the examples: the second call of a batch fails. *)
Definition second_fails (i : nat) : Provider :=
  fun _ => if (i =? 1)%nat then Throw quota_error
           else Ok (VString reply_six).

(** The body of the second end-to-end scenario, without severity and
    confidence, a body without a crop, and entries of a batch. *)
Definition potato_body : AdviceBody :=
  {| body_crop := VString (lit "Potato");
     body_disease := VString (lit "Late Blight");
     body_severity := VUndefined; body_confidence := NumAbsent |}.

Definition no_crop_body : AdviceBody :=
  {| body_crop := VString []; body_disease := VString (lit "Late Blight");
     body_severity := VUndefined; body_confidence := NumAbsent |}.

Definition tomato_entry : Entry :=
  {| entry_crop := VString (lit "Tomato");
     entry_disease := VString (lit "Early Blight");
     entry_severity := lit "medium"; entry_confidence := conf_0_93 |}.

Definition potato_entry : Entry :=
  {| entry_crop := VString (lit "Potato");
     entry_disease := VString (lit "Late Blight");
     entry_severity := lit "high"; entry_confidence := zero |}.

(** An entry whose confidence is 100. *)
Definition overconfident_entry : Entry :=
  {| entry_crop := VString (lit "Tomato");
     entry_disease := VString (lit "Early Blight");
     entry_severity := lit "medium"; entry_confidence := hundred |}.

(** A provider that answers every call with [reply_six]. *)
Definition replies_six : Provider := fun _ => Ok (VString reply_six).

(** * The matcher computes the plain functions *)

Lemma or_else_None {A} (x : option A) : or_else x None = x.
Proof. by destruct x. Qed.

Lemma pattern_shape f : pattern f = section_re (label f) (stops f).
Proof. by destruct f. Qed.

Lemma m_ilit l s k :
  m (ilit l) s k =
  if starts_ci l (rest s) then k (MState (drop (length l) (rest s)) (cap s))
  else None.
Proof.
  revert s. induction l as [|c l IH]; intros [t cp]; simpl.
  - done.
  - destruct t as [|x t]; simpl; [done|].
    destruct (canonicalize x =? canonicalize c); simpl; [|done].
    by rewrite IH.
Qed.

Lemma star_lazy_dot k n t c :
  (length t <= n)%nat ->
  star_loop (m dot) false k n (MState t c) = lazy_scan k c t.
Proof.
  revert t. induction n as [|n IH]; intros t Hn.
  - destruct t; simpl in *; [|lia]. by rewrite or_else_None.
  - destruct t as [|x t]; simpl in *.
    + done.
    + rewrite IH by lia.
      by destruct (decide (length t < S (length t))%nat) as [H|H];
        [apply Nat.ltb_lt in H; rewrite H | lia].
Qed.

Lemma star_greedy_char p k n t c :
  (length t <= n)%nat ->
  star_loop (m (RChar p)) true k n (MState t c) = greedy_scan p k c t.
Proof.
  revert t. induction n as [|n IH]; intros t Hn.
  - by destruct t; simpl in *; [|lia].
  - destruct t as [|x t]; simpl in *; [done|].
    destruct (p x); [|done].
    rewrite IH by lia.
    by destruct (decide (length t < S (length t))%nat) as [H|H];
      [apply Nat.ltb_lt in H; rewrite H | lia].
Qed.

Lemma m_boundary ls t c :
  m (boundary_re ls) (MState t c) Some =
  if at_boundary ls t then
    Some (MState (match find (fun l => starts_ci l t) ls with
                  | Some l => drop (length l) t
                  | None => t
                  end) c)
  else None.
Proof.
  unfold at_boundary. induction ls as [|l ls IH]; simpl.
  - by destruct t.
  - rewrite m_ilit. simpl. destruct (starts_ci l t); simpl; [done|].
    by rewrite IH.
Qed.

Lemma at_boundary_nil ls : at_boundary ls [] = true.
Proof. unfold at_boundary. apply orb_true_r. Qed.

Lemma lazy_scan_stop ls k c0 c t :
  (forall u, k (MState u c0) =
             if at_boundary ls u then Some (MState u (c u)) else None) ->
  lazy_scan k c0 t =
  Some (MState (drop (length (until_stop ls t)) t)
          (c (drop (length (until_stop ls t)) t))).
Proof.
  intros Hk. induction t as [|x t IH]; cbn [lazy_scan until_stop]; rewrite Hk.
  - by rewrite at_boundary_nil.
  - destruct (at_boundary ls (x :: t)); simpl; [done|]. by rewrite IH.
Qed.

Lemma until_stop_prefix ls t :
  take (length (until_stop ls t)) t = until_stop ls t.
Proof.
  induction t as [|x t IH]; cbn [until_stop].
  - by destruct (at_boundary ls []).
  - destruct (at_boundary ls (x :: t)); simpl; [done|]. by rewrite IH.
Qed.

Lemma until_stop_length ls t : (length (until_stop ls t) <= length t)%nat.
Proof.
  rewrite <- (until_stop_prefix ls t) at 1. rewrite length_take. lia.
Qed.

(** From the group on: one character, then as few as reach a stop. *)
Lemma m_group ls x u c :
  m (rseq [RGroup (plus_lazy dot); RLookahead (boundary_re ls)])
    (MState (x :: u) c) Some =
  Some (MState (drop (length (until_stop ls u)) u)
          (Some (x :: until_stop ls u))).
Proof.
  cbn [rseq foldr m plus_lazy dot rest cap].
  rewrite star_lazy_dot by (simpl; lia).
  erewrite (lazy_scan_stop ls _ c
              (fun u' => Some (take (length (x :: u) - length u') (x :: u)))).
  - f_equal. f_equal. f_equal.
    pose proof (until_stop_length ls u) as Hl.
    rewrite length_drop. simpl length.
    replace (S (length u) - (length u - length (until_stop ls u)))%nat
      with (S (length (until_stop ls u))) by lia.
    simpl. by rewrite until_stop_prefix.
  - intros u'. cbn [rest cap]. rewrite m_boundary.
    by destruct (at_boundary ls u').
Qed.

Lemma greedy_scan_capture ls c t :
  cap <$> greedy_scan is_space
            (fun s => m (rseq [RGroup (plus_lazy dot);
                               RLookahead (boundary_re ls)]) s Some) c t
  = Some <$> capture_after ls t.
Proof.
  induction t as [|x t IH].
  - done.
  - cbn [greedy_scan capture_after]. rewrite m_group.
    destruct (is_space x); [|done].
    destruct (greedy_scan _ _ c t) as [s|], (capture_after ls t) as [w|];
      simpl in *; try done; congruence.
Qed.

Lemma m_section lbl ls t :
  cap <$> m (section_re lbl ls) (MState t None) Some
  = Some <$> match_here lbl ls t.
Proof.
  unfold section_re, match_here.
  change (rseq (ilit lbl :: ?rs)) with (RSeq (ilit lbl) (rseq rs)).
  cbn [m]. rewrite m_ilit. cbn [rest cap].
  destruct (starts_ci lbl t); [|done].
  change (rseq (RStar true space :: ?rs)) with (RSeq (RStar true space) (rseq rs)).
  cbn [m rest]. unfold space. rewrite star_greedy_char by lia.
  apply greedy_scan_capture.
Qed.

Lemma exec_section lbl ls t :
  exec (section_re lbl ls) t = Some <$> find_section lbl ls t.
Proof.
  induction t as [|x t IH]; cbn [exec find_section];
    pose proof (m_section lbl ls) as H.
  - specialize (H []).
    destruct (m _ _ Some), (match_here lbl ls []); simpl in *; try done;
      congruence.
  - specialize (H (x :: t)).
    destruct (m _ _ Some), (match_here lbl ls (x :: t)); simpl in *;
      try done; congruence.
Qed.

(** A string always parses, and each field is what [extract] says. *)
Lemma parse_string text :
  parseAdviceResponse (VString text) =
  Ok {| cause := extract Cause text; symptoms := extract Symptoms text;
        immediate := extract Immediate text;
        chemical := extract Chemical text; organic := extract Organic text;
        prevention := extract Prevention text; metadata := None |}.
Proof.
  unfold parseAdviceResponse, str_match, extract.
  change causeRe with (pattern Cause). change symptomsRe with (pattern Symptoms).
  change immediateRe with (pattern Immediate).
  change chemicalRe with (pattern Chemical).
  change organicRe with (pattern Organic).
  change preventionRe with (pattern Prevention).
  rewrite !pattern_shape, !exec_section. cbn [mbind result_bind].
  by repeat (match goal with
             | |- context [find_section ?l ?ls text] =>
                 destruct (find_section l ls text)
             end; cbn [fmap option_fmap option_map field_of mbind result_bind
                       label stops next_label fallback]).
Qed.

Lemma parse_string_fields text :
  exists a, parseAdviceResponse (VString text) = Ok a
            /\ metadata a = None
            /\ forall f, get f a = extract f text.
Proof.
  eexists. split; [apply parse_string|]. split; [done|]. by intros [].
Qed.

(** * Occurrences of a label *)

Lemma starts_ci_spec l t :
  starts_ci l t = true <->
  exists occ suf, t = occ ++ suf /\ map canonicalize occ = map canonicalize l.
Proof.
  revert t. induction l as [|c l IH]; intros t; simpl.
  - split; [intros _; by exists [], t|done].
  - destruct t as [|x t].
    + split; [done|]. intros (occ & suf & Ht & Hocc).
      by destruct occ.
    + rewrite andb_true_iff, N.eqb_eq, IH. split.
      * intros (Hx & occ & suf & -> & Hocc).
        exists (x :: occ), suf. simpl. by rewrite Hx, Hocc.
      * intros (occ & suf & Ht & Hocc). destruct occ as [|y occ]; [done|].
        simpl in *. simplify_eq. eauto.
Qed.

(** [occurs_ci] says that a piece of the text equals the label, letter case
    aside. *)
Lemma occurs_ci_spec l t :
  occurs_ci l t = true <->
  exists pre occ suf,
    t = pre ++ occ ++ suf /\ map canonicalize occ = map canonicalize l.
Proof.
  induction t as [|x t IH]; simpl; rewrite orb_true_iff, starts_ci_spec.
  - split.
    + intros [(occ & suf & -> & H)|]; [|done]. by exists [], occ, suf.
    + intros (pre & occ & suf & Ht & H). left.
      destruct pre; [|done]. simpl in Ht. eauto.
  - rewrite IH. split.
    + intros [(occ & suf & Ht & H)|(pre & occ & suf & -> & H)].
      * exists [], occ, suf. eauto.
      * by exists (x :: pre), occ, suf.
    + intros (pre & occ & suf & Ht & H). destruct pre as [|y pre].
      * left. simpl in Ht. eauto.
      * right. simpl in Ht. simplify_eq. eauto.
Qed.

(** * White space and [trim] *)

Lemma skip_space_nil s : skip_space s = [] <-> forallb is_space s = true.
Proof.
  induction s as [|x s IH]; simpl; [done|].
  destruct (is_space x); simpl; [done|]. split; done.
Qed.

Lemma skip_space_app ws s :
  forallb is_space ws = true -> skip_space (ws ++ s) = skip_space s.
Proof.
  induction ws as [|x ws IH]; simpl; [done|].
  destruct (is_space x); simpl; [done|done].
Qed.

Lemma skip_space_head s x u : skip_space s = x :: u -> is_space x = false.
Proof.
  induction s as [|y s IH]; simpl; [done|].
  destruct (is_space y) eqn:Hy; [done|]. intros. by simplify_eq.
Qed.

Lemma skip_space_decompose s :
  exists ws, forallb is_space ws = true /\ s = ws ++ skip_space s.
Proof.
  induction s as [|x s (ws & Hws & IH)]; simpl.
  - by exists [].
  - destruct (is_space x) eqn:Hx.
    + exists (x :: ws). simpl. rewrite Hx, Hws. split; [done|]. by f_equal.
    + by exists [].
Qed.

Lemma forallb_rev (p : char16 -> bool) s : forallb p (rev s) = forallb p s.
Proof.
  induction s as [|x s IH]; simpl; [done|].
  rewrite forallb_app, IH. simpl. destruct (p x), (forallb p s); done.
Qed.

Lemma trim_nil s : trim s = [] <-> forallb is_space s = true.
Proof.
  unfold trim. split.
  - intros H. apply (f_equal (@rev _)) in H. rewrite rev_involutive in H.
    simpl in H. apply skip_space_nil in H. rewrite forallb_rev in H.
    destruct (skip_space s) as [|x u] eqn:Hs.
    + by apply skip_space_nil.
    + apply skip_space_head in Hs. simpl in H. by rewrite Hs in H.
  - intros H. apply skip_space_nil in H. by rewrite H.
Qed.

Lemma trim_app ws s : forallb is_space ws = true -> trim (ws ++ s) = trim s.
Proof. intros H. unfold trim. by rewrite skip_space_app. Qed.

(** * What a match captures *)

Lemma capture_after_skip ls t x u :
  skip_space t = x :: u -> capture_after ls t = Some (x :: until_stop ls u).
Proof.
  induction t as [|y t IH]; simpl; [done|].
  destruct (is_space y) eqn:Hy.
  - intros H. by rewrite (IH H).
  - intros. by simplify_eq.
Qed.

Lemma capture_after_inv ls t c :
  capture_after ls t = Some c ->
  exists ws x u, t = ws ++ x :: u /\ c = x :: until_stop ls u.
Proof.
  revert c. induction t as [|y t IH]; intros c; simpl; [done|].
  destruct (is_space y).
  - destruct (capture_after ls t) as [c'|]; simpl; intros; simplify_eq.
    + destruct (IH _ eq_refl) as (ws & x & u & -> & ->).
      by exists (y :: ws), x, u.
    + by exists [], y, t.
  - intros. simplify_eq. by exists [], y, t.
Qed.

Lemma capture_after_none ls t : capture_after ls t = None <-> t = [].
Proof.
  destruct t as [|y t]; simpl; [done|]. split; [|done].
  destruct (is_space y); [|done]. by destruct (capture_after ls t).
Qed.

Lemma find_section_absent lbl ls t :
  occurs_ci lbl t = false -> find_section lbl ls t = None.
Proof.
  unfold match_here.
  induction t as [|x t IH]; simpl; unfold match_here;
    destruct (starts_ci lbl _); simpl; try done.
Qed.

(** A match takes a piece of the text: after an occurrence of the label and
    some characters it skipped, at least one character. *)
Lemma find_section_inv lbl ls t c :
  find_section lbl ls t = Some c ->
  exists pre occ ws x u suf,
    t = pre ++ occ ++ ws ++ (x :: u) ++ suf
    /\ map canonicalize occ = map canonicalize lbl
    /\ c = x :: u.
Proof.
  induction t as [|y t IH]; cbn [find_section].
  - unfold match_here. destruct (starts_ci lbl []) eqn:Hs; [|done].
    rewrite drop_nil. done.
  - destruct (match_here lbl ls (y :: t)) as [c'|] eqn:Hm.
    + intros ?; simplify_eq. unfold match_here in Hm.
      destruct (starts_ci lbl (y :: t)) eqn:Hs; [|done].
      apply starts_ci_spec in Hs as (occ & suf & Ht & Hocc).
      assert (length occ = length lbl) as Hlen.
      { by rewrite <- (length_map canonicalize occ), Hocc, length_map. }
      rewrite Ht, <- Hlen, drop_app_length in Hm.
      apply capture_after_inv in Hm as (ws & x & u & -> & ->).
      exists [], occ, ws, x, (until_stop ls u),
        (drop (length (until_stop ls u)) u).
      split; [|done]. rewrite Ht. simpl. do 3 f_equal.
      rewrite <- (until_stop_prefix ls u) at 1. by rewrite take_drop.
    + intros H. destruct (IH H) as (pre & occ & ws & x & u & suf & -> & ? & ?).
      by exists (y :: pre), occ, ws, x, u, suf.
Qed.

Lemma find_section_first lbl ls t T :
  after_label lbl t = Some T -> T <> [] ->
  find_section lbl ls t = capture_after ls T.
Proof.
  induction t as [|y t IH]; cbn [after_label find_section]; unfold match_here.
  - destruct (starts_ci lbl []); [|done]. rewrite drop_nil. by intros [= <-].
  - destruct (starts_ci lbl (y :: t)).
    + intros [= <-] HT.
      destruct (capture_after ls _) eqn:Hc; [done|].
      by apply capture_after_none in Hc.
    + apply IH.
Qed.

Lemma starts_ci_length l t :
  starts_ci l t = true -> (length l <= length t)%nat.
Proof.
  revert t. induction l as [|c l IH]; intros [|x t]; cbn; try done; try lia.
  intros [_ H]%andb_true_iff. apply IH in H. lia.
Qed.

Lemma find_section_short lbl ls t :
  (length t < length lbl)%nat -> find_section lbl ls t = None.
Proof.
  induction t as [|y t IH]; intros Hlen; cbn [find_section]; unfold match_here.
  - destruct (starts_ci lbl []) eqn:Hs; [|done].
    apply starts_ci_length in Hs. lia.
  - destruct (starts_ci lbl (y :: t)) eqn:Hs.
    + apply starts_ci_length in Hs. lia.
    + apply IH. cbn in Hlen. lia.
Qed.

(** The pattern matches at the first occurrence of its label or nowhere. *)
Lemma find_section_after_label lbl ls t :
  find_section lbl ls t =
  match after_label lbl t with
  | Some T => capture_after ls T
  | None => None
  end.
Proof.
  induction t as [|y t IH]; cbn [find_section after_label]; unfold match_here.
  - destruct (starts_ci lbl []); [|done]. by rewrite drop_nil.
  - destruct (starts_ci lbl (y :: t)) eqn:Hs; [|done].
    destruct (capture_after ls _) as [c|] eqn:Hc; [done|].
    apply capture_after_none in Hc. apply find_section_short.
    apply starts_ci_length in Hs.
    apply (f_equal length) in Hc. rewrite length_drop in Hc.
    cbn in Hc, Hs. lia.
Qed.

(** After a label that only white space follows, backtracking leaves the
    last character of the text to the group. *)
Lemma capture_after_blank ls T :
  forallb is_space T = true -> T <> [] ->
  exists ws x, T = ws ++ [x] /\ capture_after ls T = Some [x].
Proof.
  induction T as [|y T IH]; [done|]. cbn [forallb capture_after].
  intros [Hy HT]%andb_true_iff _. rewrite Hy.
  destruct T as [|z T].
  - exists [], y. split; [done|]. cbn [capture_after or_else until_stop].
    by rewrite at_boundary_nil.
  - destruct (IH HT) as (ws & x & -> & ->); [done|].
    by exists (y :: ws), x.
Qed.

(** * The patterns and the specification's words *)

Lemma canonicalize_LF a : (canonicalize a =? canonicalize LF) = (a =? LF).
Proof.
  unfold canonicalize, LF. simpl.
  destruct ((97 <=? a) && (a <=? 122)) eqn:H; [|done].
  apply andb_true_iff in H as [H1 H2]. apply N.leb_le in H1, H2.
  rewrite (proj2 (N.eqb_neq _ _)), (proj2 (N.eqb_neq _ _)); [done|lia|lia].
Qed.

Lemma at_boundary_stops f t :
  at_boundary (stops f) t =
  blank_line_at t || next_label_at f t || bool_decide (t = []).
Proof.
  assert (starts_ci [LF; LF] t = blank_line_at t) as Hb.
  { destruct t as [|a [|b t]]; cbn [starts_ci blank_line_at];
      rewrite ?canonicalize_LF; try done.
    - by rewrite andb_false_r.
    - by rewrite andb_true_r. }
  unfold at_boundary, stops, next_label_at.
  destruct (next_label f); cbn [existsb]; rewrite Hb;
    by rewrite ?orb_false_r.
Qed.

Lemma until_stop_spec f t : until_stop (stops f) t = spec_section_text f t.
Proof.
  induction t as [|x t IH]; cbn [until_stop spec_section_text];
    rewrite at_boundary_stops.
  - by destruct (_ || _).
  - rewrite orb_false_r. destruct (_ || _); [done|]. by rewrite IH.
Qed.

(** The field of a label that is followed by text other than white space. *)
Lemma extract_section f text T :
  after_label (label f) text = Some T -> has_content T = true ->
  extract f text = trim (section_text f T).
Proof.
  intros HT Hc. unfold extract, section_text.
  assert (skip_space T <> []) as Hs.
  { intros Hs. apply skip_space_nil in Hs. unfold has_content in Hc.
    by rewrite Hs in Hc. }
  rewrite (find_section_first _ _ _ T HT) by (by intros ->).
  destruct (skip_space T) as [|x u] eqn:Hu; [done|].
  by rewrite (capture_after_skip _ _ _ _ Hu), until_stop_spec.
Qed.

(** What a field's pattern finds in a text: nothing when the label does not
    occur or occurs at the very end only; otherwise a piece of the text after
    the label's first occurrence and the white space that follows it. *)
Lemma find_section_cases f text :
  match find_section (label f) (stops f) text with
  | None =>
      after_label (label f) text = None \/ after_label (label f) text = Some []
  | Some c =>
      c <> []
      /\ exists T ws suf,
           after_label (label f) text = Some T
           /\ T = ws ++ c ++ suf /\ forallb is_space ws = true
           /\ if has_content T then c = section_text f T
              else suf = [] /\ length c = 1%nat
  end.
Proof.
  rewrite find_section_after_label.
  destruct (after_label (label f) text) as [T|]; [|by left].
  destruct (decide (T = [])) as [->|HT0]; [by right|].
  unfold has_content. destruct (forallb is_space T) eqn:Hsp.
  - destruct (capture_after_blank (stops f) T Hsp HT0) as (ws & x & HT & ->).
    split; [done|]. exists T, ws, []. split; [done|].
    split; [by rewrite app_nil_r|]. rewrite Hsp. split; [|done].
    rewrite HT, forallb_app in Hsp. by apply andb_true_iff in Hsp as [? _].
  - destruct (skip_space T) as [|x u] eqn:Hu.
    { apply skip_space_nil in Hu. congruence. }
    rewrite (capture_after_skip _ _ _ _ Hu). split; [done|].
    destruct (skip_space_decompose T) as (ws & Hws & HT). rewrite Hu in HT.
    exists T, ws, (drop (length (until_stop (stops f) u)) u).
    split; [done|]. split; [|split; [done|]].
    + rewrite HT at 1. cbn [app]. do 2 f_equal.
      rewrite <- (until_stop_prefix (stops f) u) at 1. by rewrite take_drop.
    + rewrite Hsp. unfold section_text. by rewrite Hu, until_stop_spec.
Qed.

(** Where the specification's words and the patterns agree: when the text
    between the label and its first stop is not blank. *)
Lemma spec_section_text_content f T :
  has_content (spec_section_text f T) = true ->
  trim (spec_section_text f T) = trim (section_text f T).
Proof.
  unfold section_text, has_content.
  induction T as [|x T IH]; cbn [spec_section_text skip_space]; [done|].
  destruct (blank_line_at (x :: T) || next_label_at f (x :: T)); [done|].
  destruct (is_space x) eqn:Hx; [|done].
  cbn [forallb]. rewrite Hx. cbn [andb]. intros H.
  rewrite <- (IH H). by apply (trim_app [x]); simpl; rewrite Hx.
Qed.

Lemma extract_agrees_with_spec f text T :
  after_label (label f) text = Some T ->
  has_content (spec_section_text f T) = true ->
  Some (extract f text) = spec_extract f text.
Proof.
  intros HT Hc. unfold spec_extract. rewrite HT. cbn. f_equal.
  rewrite spec_section_text_content by done. apply extract_section; [done|].
  unfold has_content in *. destruct (forallb is_space T) eqn:Hs; [|done].
  exfalso. revert Hc. rewrite <- (until_stop_spec f T).
  rewrite <- (until_stop_prefix (stops f) T).
  destruct (forallb is_space (take _ T)) eqn:Ht; [done|].
  apply not_true_iff_false in Ht. destruct Ht.
  rewrite <- (take_drop (length (until_stop (stops f) T)) T) in Hs.
  rewrite forallb_app in Hs. by apply andb_true_iff in Hs as [-> _].
Qed.

(** * Six labels in order *)

Lemma has_content_drop n t :
  has_content (drop n t) = true -> has_content t = true.
Proof.
  unfold has_content. rewrite <- (take_drop n t) at 2. rewrite forallb_app.
  destruct (forallb is_space (drop n t)); [done|]. by rewrite andb_false_r.
Qed.

Lemma has_content_app_l b t : has_content b = true -> has_content (b ++ t) = true.
Proof.
  unfold has_content. rewrite forallb_app. by destruct (forallb is_space b).
Qed.

(** The first occurrence of a label is at or before any occurrence. *)
Lemma after_label_first l t j :
  starts_ci l (drop j t) = true ->
  exists k, (k <= j)%nat /\ after_label l t = Some (drop (k + length l) t).
Proof.
  revert j. induction t as [|x t IH]; intros j Hj.
  - rewrite drop_nil in Hj. cbn [after_label]. rewrite Hj. exists 0%nat.
    split; [lia|done].
  - cbn [after_label]. destruct (starts_ci l (x :: t)) eqn:Hs.
    + exists 0%nat. split; [lia|done].
    + destruct j as [|j]; [simpl in Hj; congruence|].
      destruct (IH j Hj) as (k & Hk & ->). exists (S k). split; [lia|done].
Qed.

Lemma split_label_inv l t b a :
  split_label l t = Some (b, a) ->
  t = b ++ drop (length b) t
  /\ starts_ci l (drop (length b) t) = true
  /\ a = drop (length b + length l) t.
Proof.
  revert b. induction t as [|x t IH]; intros b; cbn [split_label].
  - destruct (starts_ci l []) eqn:Hs; [|done]. intros [= <- <-].
    by rewrite !drop_nil.
  - destruct (starts_ci l (x :: t)) eqn:Hs.
    + intros [= <- <-]. done.
    + destruct (split_label l t) as [[b' a']|]; [|done]. cbn.
      intros [= <- <-]. destruct (IH b' eq_refl) as (H1 & H2 & H3).
      cbn. by rewrite <- H1.
Qed.

Lemma sections_in_order_content fs t :
  sections_in_order fs t = true -> has_content t = true.
Proof.
  destruct fs as [|f fs]; cbn [sections_in_order]; [done|].
  destruct (split_label (label f) t) as [[b a]|] eqn:Hsp; [|done].
  intros [Hb _]%andb_true_iff.
  apply split_label_inv in Hsp as (-> & _ & _). by apply has_content_app_l.
Qed.

Lemma sections_in_order_each fs t f :
  sections_in_order fs t = true -> f ∈ fs ->
  exists j, starts_ci (label f) (drop j t) = true
            /\ has_content (drop (j + length (label f)) t) = true.
Proof.
  revert t. induction fs as [|g fs IH]; intros t Hs Hf.
  - by apply elem_of_nil in Hf.
  - cbn [sections_in_order] in Hs.
    destruct (split_label (label g) t) as [[b a]|] eqn:Hsp; [|done].
    apply andb_true_iff in Hs as [Hb Ha].
    apply split_label_inv in Hsp as (Ht & Hst & ->).
    apply elem_of_cons in Hf as [->|Hf].
    + exists (length b). split; [done|].
      by apply sections_in_order_content in Ha.
    + destruct (IH _ Ha Hf) as (j & Hj & Hc). rewrite drop_drop in Hj, Hc.
      exists (length b + length (label g) + j)%nat. split; [done|].
      by rewrite <- Nat.add_assoc.
Qed.

(** With the six labels in order and content between them, each label
    occurs and its first occurrence is followed by text that is not blank. *)
Lemma six_labels_each text f :
  six_labels_in_order text = true ->
  exists T, after_label (label f) text = Some T /\ has_content T = true.
Proof.
  unfold six_labels_in_order.
  destruct (after_label (label Cause) text) as [T0|] eqn:H0; [|done].
  intros Hs.
  assert (exists j, starts_ci (label f) (drop j text) = true
            /\ has_content (drop (j + length (label f)) text) = true)
    as (j & Hj & Hc).
  { assert (exists j0, starts_ci (label Cause) (drop j0 text) = true
              /\ T0 = drop (j0 + length (label Cause)) text) as (j0 & Hj0 & ->).
    { clear Hs. revert T0 H0.
      induction text as [|x text IH]; intros T0; cbn [after_label].
      - destruct (starts_ci (label Cause) []) eqn:E; [|done].
        intros [= <-]. by exists 0%nat.
      - destruct (starts_ci (label Cause) (x :: text)) eqn:E.
        + intros [= <-]. by exists 0%nat.
        + intros H. destruct (IH _ H) as (j0 & ? & ->). by exists (S j0). }
    destruct f.
    1: { exists j0. split; [done|]. by apply sections_in_order_content in Hs. }
    all: match goal with
         | |- context [label ?g] =>
             destruct (sections_in_order_each _ _ g Hs) as (j & Hj & Hc);
               [repeat constructor|]
         end;
      rewrite drop_drop in Hj, Hc;
      exists (j0 + length (label Cause) + j)%nat;
      (split; [done|]); by rewrite <- Nat.add_assoc. }
  destruct (after_label_first _ _ _ Hj) as (k & Hk & ->).
  eexists; split; [done|].
  apply (has_content_drop (j - k)). rewrite drop_drop.
  by replace (k + length (label f) + (j - k))%nat
       with (j + length (label f))%nat by lia.
Qed.

(** * Generating advice from a reply *)

Lemma generate_string nts ai now d text :
  ai (request_of nts d) = Ok (VString text) ->
  generateCropAdvice nts ai now d =
  Ok {| cause := extract Cause text; symptoms := extract Symptoms text;
        immediate := extract Immediate text;
        chemical := extract Chemical text; organic := extract Organic text;
        prevention := extract Prevention text;
        metadata := Some (metadata_of d now) |}.
Proof.
  intros H. unfold generateCropAdvice. fold (request_of nts d). rewrite H.
  cbn [mbind result_bind]. by rewrite parse_string.
Qed.

Lemma parse_not_string v :
  (forall s, v <> VString s) ->
  parseAdviceResponse v = Throw (Error (lit "Failed to parse AI response")).
Proof. destruct v as [| |s]; [done|done|]. intros H. by destruct (H s). Qed.

Lemma generate_inv nts ai now d a :
  generateCropAdvice nts ai now d = Ok a ->
  exists text, ai (request_of nts d) = Ok (VString text).
Proof.
  unfold generateCropAdvice. fold (request_of nts d).
  destruct (ai (request_of nts d)) as [v|e]; [|done].
  destruct v as [| |text]; [done|done|]. eauto.
Qed.

(** * [Promise.all] as the promises settle *)

Section PromiseAll.
Context {A : Type}.
Implicit Types (ps : list (result A)) (st : all_state A) (order : list nat).
Local Open Scope nat_scope.

Lemma indices_bounded (l : list nat) n :
  NoDup l -> (forall j, j ∈ l -> j < n) -> length l <= n.
Proof.
  intros Hnd Hlt.
  assert (length l <= length (seq 0 n)) as H; [|by rewrite length_seq in H].
  apply submseteq_length, NoDup_submseteq; [done|].
  intros j Hj. apply elem_of_seq. specialize (Hlt j Hj). lia.
Qed.

Lemma all_inv_init ps : all_inv ps [] (all_init (length ps)).
Proof.
  unfold all_inv, all_init. cbn [values remainingElementsCount settled length].
  split; [|split].
  - apply list_eq. intros j. rewrite list_lookup_imap.
    destruct (ps !! j) as [r|] eqn:Hj; cbn.
    + apply lookup_replicate_2. by apply lookup_lt_Some in Hj.
    + apply lookup_ge_None. rewrite length_replicate.
      by apply lookup_ge_None in Hj.
  - lia.
  - destruct (decide (length ps = 0)) as [H0|H0].
    + rewrite decide_False by lia. by rewrite H0.
    + by rewrite decide_True by lia.
Qed.

Lemma all_inv_settle ps done st i x :
  all_inv ps done st -> NoDup (i :: done) ->
  (forall j, j ∈ done -> j < length ps) ->
  ps !! i = Some (Ok x) ->
  all_inv ps (i :: done) (all_settle ps st i).
Proof.
  intros (Hv & Hr & Hs) Hnd Hlt Hi. unfold all_settle. rewrite Hi.
  assert (i < length ps) as Hilt by (by apply lookup_lt_Some in Hi).
  assert (S (length done) <= length ps) as Hlen.
  { apply (indices_bounded (i :: done)); [done|].
    intros j [->|Hj]%elem_of_cons; auto. }
  unfold all_inv. cbn [values remainingElementsCount settled length].
  split; [|split].
  - rewrite Hv. apply list_eq. intros j.
    destruct (decide (j = i)) as [->|Hji].
    + rewrite list_lookup_insert_eq by (by rewrite length_imap).
      rewrite list_lookup_imap, Hi. cbn.
      by rewrite decide_True by (by left).
    + rewrite list_lookup_insert_ne by done. rewrite !list_lookup_imap.
      destruct (ps !! j) as [r|]; cbn; [|done]. f_equal.
      destruct (decide (j ∈ done)) as [Hj|Hj].
      * by rewrite decide_True by (by right).
      * rewrite decide_False; [done|]. by intros [?|?]%elem_of_cons.
  - lia.
  - rewrite Hs, Hr. rewrite decide_True by lia. cbn [or_else].
    destruct (decide (S (length done) < length ps)).
    + by rewrite decide_False by lia.
    + by rewrite decide_True by lia.
Qed.

Lemma all_inv_foldl ps order done st :
  all_inv ps done st -> NoDup (done ++ order) ->
  (forall j, j ∈ done ++ order -> exists x, ps !! j = Some (Ok x)) ->
  exists done', done' ≡ₚ done ++ order
                /\ all_inv ps done' (foldl (all_settle ps) st order).
Proof.
  revert done st. induction order as [|i order IH]; intros done st Hinv Hnd Hok.
  - exists done. by rewrite app_nil_r.
  - cbn [foldl].
    assert (done ++ i :: order ≡ₚ (i :: done) ++ order) as Hp
      by (by rewrite <- Permutation_middle).
    destruct (Hok i) as (x & Hi); [rewrite Hp; by left|].
    destruct (IH (i :: done) (all_settle ps st i)) as (done' & Hd & Hinv').
    + apply (all_inv_settle _ _ _ _ x); [done| | |done].
      * rewrite Hp in Hnd. cbn in Hnd. apply NoDup_cons in Hnd as [Hni Hnd].
        apply NoDup_cons. split; [|by apply NoDup_app in Hnd as [? _]].
        intros ?. apply Hni. apply elem_of_app. by left.
      * intros j Hj. destruct (Hok j) as (y & Hy).
        { apply elem_of_app. by left. }
        by apply lookup_lt_Some in Hy.
    + by rewrite <- Hp.
    + intros j Hj. apply Hok. by rewrite Hp.
    + exists done'. split; [|done]. by rewrite Hp.
Qed.

Lemma settled_stable ps st order r :
  settled st = Some r -> settled (foldl (all_settle ps) st order) = Some r.
Proof.
  revert st. induction order as [|i order IH]; intros st Hs; [done|].
  cbn [foldl]. apply IH. unfold all_settle.
  destruct (ps !! i) as [[x|e]|]; cbn [settled]; by rewrite ?Hs.
Qed.

Lemma all_ok_fmap ps :
  (forall j r, ps !! j = Some r -> exists x, r = Ok x) ->
  ps = Ok <$> omap value_of ps.
Proof.
  induction ps as [|r ps IH]; intros H; [done|].
  destruct (H 0 r eq_refl) as (x & ->). cbn. f_equal.
  apply IH. intros j r' Hj. by apply (H (S j)).
Qed.

(** When every promise fulfils, [Promise.all] fulfils with the values in the
    order of the promises, whatever the order in which they settled. *)
Lemma Promise_all_fulfilled ps order :
  order ≡ₚ seq 0 (length ps) ->
  (forall j r, ps !! j = Some r -> exists x, r = Ok x) ->
  exists out, Promise_all ps order = Some (Ok out) /\ ps = Ok <$> out.
Proof.
  intros Hperm Hok. unfold Promise_all.
  destruct (all_inv_foldl ps order [] (all_init (length ps)))
    as (done' & Hd & Hv & _ & Hs).
  - apply all_inv_init.
  - cbn. rewrite Hperm. apply NoDup_seq.
  - cbn. intros j Hj. rewrite Hperm in Hj. apply elem_of_seq in Hj.
    destruct (lookup_lt_is_Some_2 ps j) as [r Hr]; [lia|].
    destruct (Hok _ _ Hr) as (x & ->). eauto.
  - cbn in Hd. rewrite Hs.
    rewrite decide_False
      by (rewrite Hd, Hperm, length_seq; lia).
    exists (omap id (values (foldl (all_settle ps) (all_init (length ps)) order))).
    split; [done|]. rewrite Hv.
    assert (imap (fun j r => if decide (j ∈ done') then value_of r else None) ps
            = value_of <$> ps) as ->.
    { apply list_eq. intros j. rewrite list_lookup_imap, list_lookup_fmap.
      destruct (ps !! j) as [r|] eqn:Hj; cbn; [|done].
      rewrite decide_True; [done|]. rewrite Hd, Hperm. apply elem_of_seq.
      apply lookup_lt_Some in Hj. lia. }
    assert (forall l : list (result A), omap id (value_of <$> l) = omap value_of l)
      as -> by (intros l; induction l as [|[?|?] l IHl]; cbn; by rewrite ?IHl).
    by apply all_ok_fmap.
Qed.

(** A rejection after fulfilments only rejects [Promise.all] with that very
    reason, and what settles later changes nothing. *)
Lemma Promise_all_rejected ps pre i post e :
  NoDup pre ->
  (forall j, j ∈ pre -> exists x, ps !! j = Some (Ok x)) ->
  ps !! i = Some (Throw e) ->
  Promise_all ps (pre ++ i :: post) = Some (Throw e).
Proof.
  intros Hnd Hok Hi. unfold Promise_all. rewrite foldl_app. cbn [foldl].
  apply settled_stable.
  destruct (all_inv_foldl ps pre [] (all_init (length ps)))
    as (done' & Hd & _ & _ & Hs); [apply all_inv_init|done|done|].
  cbn in Hd. unfold all_settle at 1. rewrite Hi. cbn [settled]. rewrite Hs.
  rewrite decide_True; [done|].
  assert (S (length done') <= length ps); [|lia].
  apply (indices_bounded (i :: done')).
  - apply NoDup_cons. rewrite Hd. split; [|done].
    intros Hin. destruct (Hok _ Hin) as (x & Hx). congruence.
  - intros j [->|Hj]%elem_of_cons.
    + by apply lookup_lt_Some in Hi.
    + rewrite Hd in Hj. destruct (Hok _ Hj) as (x & Hx).
      by apply lookup_lt_Some in Hx.
Qed.

(** The first promise to reject, in the order of settling. *)
Lemma first_rejection ps order i e :
  i ∈ order -> ps !! i = Some (Throw e) ->
  (forall j, j ∈ order -> is_Some (ps !! j)) ->
  exists pre i' post e',
    order = pre ++ i' :: post
    /\ (forall j, j ∈ pre -> exists x, ps !! j = Some (Ok x))
    /\ ps !! i' = Some (Throw e').
Proof.
  induction order as [|k order IH]; intros Hin Hi Hall.
  - by apply elem_of_nil in Hin.
  - destruct (Hall k) as [[x|e'] Hk]; [by left| |].
    + assert (i ∈ order) as Hin'.
      { apply elem_of_cons in Hin as [->|?]; [congruence|done]. }
      destruct IH as (pre & i' & post & e' & -> & Hpre & Hi'); [done|done| |].
      { intros j Hj. apply Hall. by right. }
      exists (k :: pre), i', post, e'. split; [done|]. split; [|done].
      intros j [->|Hj]%elem_of_cons; eauto.
    + exists [], k, order, e'. split; [done|]. split; [|done].
      intros j Hj. by apply elem_of_nil in Hj.
Qed.

(** While the promises that have settled are all fulfilled and some promise
    has not settled, [Promise.all] is pending. *)
Lemma Promise_all_pending ps order :
  NoDup order -> length order < length ps ->
  (forall j, j ∈ order -> exists x, ps !! j = Some (Ok x)) ->
  Promise_all ps order = None.
Proof.
  intros Hnd Hlen Hok. unfold Promise_all.
  destruct (all_inv_foldl ps order [] (all_init (length ps)))
    as (done' & Hd & _ & _ & Hs); [apply all_inv_init|done|done|].
  rewrite Hs. cbn in Hd. rewrite decide_True; [done|]. by rewrite Hd.
Qed.

Lemma all_ok_or_rejection ps order :
  (forall j, j ∈ order -> is_Some (ps !! j)) ->
  (forall j, j ∈ order -> exists x, ps !! j = Some (Ok x))
  \/ (exists i e, i ∈ order /\ ps !! i = Some (Throw e)).
Proof.
  induction order as [|k order IH]; intros Hall.
  - left. intros j Hj. by apply elem_of_nil in Hj.
  - destruct (Hall k) as [[x|e] Hk]; [by left| |].
    + destruct IH as [IH|(i & e & Hi & He)].
      * intros j Hj. apply Hall. by right.
      * left. intros j [->|Hj]%elem_of_cons; eauto.
      * right. exists i, e. split; [by right|done].
    + right. exists k, e. split; [by left|done].
Qed.

(** With a promise that rejects among them, [Promise.all] never fulfils:
    whatever has settled, it is pending or rejected. *)
Lemma Promise_all_no_list ps order i e :
  NoDup order -> (forall j, j ∈ order -> j < length ps) ->
  ps !! i = Some (Throw e) ->
  forall out, Promise_all ps order <> Some (Ok out).
Proof.
  intros Hnd Hrange Hi out.
  assert (forall j, j ∈ order -> is_Some (ps !! j)) as Hall.
  { intros j Hj. apply lookup_lt_is_Some_2. by apply Hrange. }
  destruct (all_ok_or_rejection ps order Hall) as [Hok|(k & e' & Hk & He')].
  - rewrite Promise_all_pending; [done|done| |done].
    assert (S (length order) <= length ps); [|lia].
    apply (indices_bounded (i :: order)).
    + apply NoDup_cons. split; [|done].
      intros Hin. destruct (Hok _ Hin) as (x & Hx). congruence.
    + intros j [->|Hj]%elem_of_cons; [|by apply Hrange].
      by apply lookup_lt_Some in Hi.
  - destruct (first_rejection ps order k e' Hk He' Hall)
      as (pre & i' & post & e'' & -> & Hpre & Hi').
    rewrite (Promise_all_rejected ps pre i' post e''); [done| |done|done].
    by apply NoDup_app in Hnd as [? _].
Qed.

End PromiseAll.

(** The promises of a batch. *)
Lemma batch_promise_lookup nts (ai : nat -> Provider) (clock : nat -> jsstring)
  (ds : list DetectionInput) (i : nat) :
  imap (fun i data => generateCropAdvice nts (ai i) (clock i) data) ds !! i
  = (fun d => generateCropAdvice nts (ai i) (clock i) d) <$> ds !! i.
Proof.
  exact (list_lookup_imap
           (fun i data => generateCropAdvice nts (ai i) (clock i) data) ds i).
Qed.

(** * The confidence in the prompt *)

Lemma build_prompt_head nts d :
  build_prompt nts d =
  prompt_head d ++ confidence_percent nts (confidence d) ++ prompt_format.
Proof. unfold build_prompt, prompt_head. by rewrite <- !app_assoc. Qed.

Lemma round_half_up_nearest mant e n :
  (e < 0)%Z ->
  ((2 * n - 1) * 2 ^ (- e) <= 2 * Z.pos mant)%Z ->
  (2 * Z.pos mant < (2 * n + 1) * 2 ^ (- e))%Z ->
  round_half_up mant e = n.
Proof.
  intros He Hlo Hhi. unfold round_half_up.
  destruct (0 <=? e)%Z eqn:E; [apply Z.leb_le in E; lia|].
  assert (0 < 2 ^ (- e))%Z as Hpos by (apply Z.pow_pos_nonneg; lia).
  rewrite Z.pow_add_r by lia. change (2 ^ 1)%Z with 2%Z.
  symmetry.
  apply (Z.div_unique _ _ n (2 * Z.pos mant + 2 ^ (- e) - 2 ^ (- e) * 2 * n));
    [left|]; nia.
Qed.

Lemma toFixed0_nearest nts p x n :
  number_value p = Some x ->
  (0 <= x)%Q -> (x < inject_Z (10 ^ 21))%Q ->
  (inject_Z n - (1 # 2) <= x)%Q -> (x < inject_Z n + (1 # 2))%Q ->
  toFixed0 nts p = decimal n.
Proof.
  destruct p as [s|s| |s mant e]; cbn [number_value toFixed0]; try done.
  - intros [= <-] _ _ Hlo Hhi.
    unfold Qle, Qlt in *. cbn in Hlo, Hhi.
    by replace n with 0%Z by lia.
  - intros [= <-] H0 Hmax Hlo Hhi.
    unfold at_least_1e21. destruct (0 <=? e)%Z eqn:E.
    + apply Z.leb_le in E.
      assert (0 < 2 ^ e)%Z as Hpos by (by apply Z.pow_pos_nonneg).
      destruct s; unfold Qle, Qlt in *; cbn in H0, Hmax, Hlo, Hhi.
      * nia.
      * rewrite (proj2 (Z.leb_gt _ _)) by lia.
        unfold round_half_up. rewrite (proj2 (Z.leb_le _ _) E).
        cbn [app]. f_equal. lia.
    + apply Z.leb_gt in E.
      assert (0 < 2 ^ (- e))%Z as Hpos by (apply Z.pow_pos_nonneg; lia).
      assert (Z.pos (Z.to_pos (2 ^ (- e))) = 2 ^ (- e))%Z as HP
        by (by apply Z2Pos.id).
      destruct s; unfold Qle, Qlt in *; cbn in H0, Hmax, Hlo, Hhi;
        rewrite ?HP in *.
      * lia.
      * rewrite (proj2 (Z.leb_gt _ _)) by lia.
        cbn [app]. f_equal. apply round_half_up_nearest; lia.
Qed.

(** ** The product [confidence * 100] for a confidence from 0 to 1

    The product is rounded to 53 bits; its magnitude stays far below the
    10^21 from which [toFixed] changes its output. *)

Section Binary64.
Local Open Scope Z_scope.

Lemma digits2_pos_bounds p :
  2 ^ (Z.pos (digits2_pos p) - 1) <= Z.pos p < 2 ^ Z.pos (digits2_pos p).
Proof.
  induction p as [p IH|p IH|]; cbn [digits2_pos].
  - rewrite Pos2Z.inj_succ, (Pos2Z.inj_xI p).
    replace (Z.succ (Z.pos (digits2_pos p)) - 1)
      with (Z.succ (Z.pos (digits2_pos p) - 1)) by lia.
    rewrite !Z.pow_succ_r by lia.
    revert IH. generalize (2 ^ (Z.pos (digits2_pos p) - 1)).
    generalize (2 ^ Z.pos (digits2_pos p)). intros a b IH. lia.
  - rewrite Pos2Z.inj_succ, (Pos2Z.inj_xO p).
    replace (Z.succ (Z.pos (digits2_pos p)) - 1)
      with (Z.succ (Z.pos (digits2_pos p) - 1)) by lia.
    rewrite !Z.pow_succ_r by lia.
    revert IH. generalize (2 ^ (Z.pos (digits2_pos p) - 1)).
    generalize (2 ^ Z.pos (digits2_pos p)). intros a b IH. lia.
  - cbn. lia.
Qed.

Lemma Zdigits2_lt m : 0 <= m -> m < 2 ^ Zdigits2 m.
Proof.
  destruct m as [|p|p]; intros H; [cbn; lia| |lia].
  apply digits2_pos_bounds.
Qed.

Lemma Zdigits2_le m k : 0 <= k -> 0 <= m < 2 ^ k -> Zdigits2 m <= k.
Proof.
  destruct m as [|p|p]; intros Hk [H0 Hm]; [done| |lia].
  cbn [Zdigits2]. pose proof (digits2_pos_bounds p) as [Hlo _].
  assert (2 ^ (Z.pos (digits2_pos p) - 1) < 2 ^ k) as Hlt by lia.
  apply Z.pow_lt_mono_r_iff in Hlt; lia.
Qed.

Lemma shr_1_div r : 0 <= shr_m r -> shr_m (shr_1 r) = shr_m r / 2.
Proof.
  destruct r as [m r s]. cbn [shr_m]. intros H.
  destruct m as [|[p|p|]|p]; cbn [shr_1 shr_m]; try reflexivity; try lia.
  - apply (Z.div_unique _ _ _ 1); lia.
  - apply (Z.div_unique _ _ _ 0); lia.
Qed.

Lemma pow2_xI p : 2 ^ Z.pos p~1 = 2 * (2 ^ Z.pos p * 2 ^ Z.pos p).
Proof.
  rewrite (Pos2Z.inj_xI p).
  replace (2 * Z.pos p + 1) with (1 + (Z.pos p + Z.pos p)) by lia.
  by rewrite !Z.pow_add_r by lia.
Qed.

Lemma pow2_xO p : 2 ^ Z.pos p~0 = 2 ^ Z.pos p * 2 ^ Z.pos p.
Proof.
  rewrite (Pos2Z.inj_xO p).
  replace (2 * Z.pos p) with (Z.pos p + Z.pos p) by lia.
  by rewrite !Z.pow_add_r by lia.
Qed.

Lemma iter_shr_1_div p r :
  0 <= shr_m r ->
  shr_m (SpecFloat.iter_pos shr_1 p r) = shr_m r / 2 ^ Z.pos p.
Proof.
  revert r. induction p as [p IH|p IH|]; intros r H;
    cbn [SpecFloat.iter_pos].
  - assert (0 <= shr_m (shr_1 r)) as H1
      by (rewrite shr_1_div by done; apply Z.div_pos; lia).
    assert (0 <= shr_m (SpecFloat.iter_pos shr_1 p (shr_1 r))) as H2
      by (rewrite IH by done; apply Z.div_pos; lia).
    rewrite IH, IH, shr_1_div by done.
    rewrite !Z.div_div by lia. by rewrite pow2_xI.
  - assert (0 <= shr_m (SpecFloat.iter_pos shr_1 p r)) as H2
      by (rewrite IH by done; apply Z.div_pos; lia).
    rewrite IH, IH by done. rewrite Z.div_div by lia. by rewrite pow2_xO.
  - by rewrite shr_1_div.
Qed.

(** One rounding step of binary64 keeps a magnitude bound: with the
    mantissa [m >= 0] and the exponent [e], either nothing is shifted or
    the mantissa fits 53 bits and the exponent is the canonical one. *)
Lemma shr_fexp_cases m e l r1 e1 :
  0 <= m -> shr_fexp 53 1024 m e l = (r1, e1) ->
  0 <= shr_m r1
  /\ ((r1 = shr_record_of_loc m l /\ e1 = e)
      \/ (shr_m r1 < 2 ^ 53
          /\ e1 = Z.max (Zdigits2 m + e - 53) (-1074))).
Proof.
  intros Hm. unfold shr_fexp, shr, fexp, emin.
  assert (shr_m (shr_record_of_loc m l) = m) as Hrec
    by (by destruct l as [|[| |]]).
  change (3 - 1024 - 53) with (-1074).
  destruct (Z.max (Zdigits2 m + e - 53) (-1074) - e) as [|n|n] eqn:Hn.
  - intros [= <- <-]. rewrite Hrec. auto.
  - intros [= <- <-]. rewrite iter_shr_1_div by (by rewrite Hrec).
    rewrite Hrec. split; [apply Z.div_pos; lia|]. right. split; [|lia].
    apply Z.div_lt_upper_bound; [lia|].
    pose proof (Zdigits2_lt m Hm) as Hd.
    assert (0 <= Zdigits2 m) as Hd0 by (by destruct m).
    assert (2 ^ Zdigits2 m <= 2 ^ (Z.pos n + 53)) as Hle
      by (apply Z.pow_le_mono_r; lia).
    rewrite Z.pow_add_r in Hle by lia. lia.
  - intros [= <- <-]. rewrite Hrec. auto.
Qed.

Lemma round_nearest_even_bounds m l :
  m <= round_nearest_even m l <= m + 1.
Proof. destruct l as [|[| |]]; cbn; try lia. destruct (Z.even m); lia. Qed.

(** Rounding a positive mantissa whose magnitude (bit length plus exponent)
    is at most [B] gives zero or a finite number of magnitude at most
    [B + 1]; it does not overflow. *)
Lemma binary_round_aux_magnitude M E B :
  -1021 <= B <= 971 ->
  Zdigits2 (Z.pos M) + E <= B ->
  binary_round_aux 53 1024 false (Z.pos M) E loc_Exact = S754_zero false
  \/ exists m' e',
       binary_round_aux 53 1024 false (Z.pos M) E loc_Exact
       = S754_finite false m' e'
       /\ Z.pos (digits2_pos m') + e' <= B + 1.
Proof.
  intros HB Hmag. unfold binary_round_aux.
  destruct (shr_fexp 53 1024 (Z.pos M) E loc_Exact) as [r1 e1] eqn:H1.
  apply shr_fexp_cases in H1 as [Hr1 H1]; [|lia].
  pose proof (round_nearest_even_bounds (shr_m r1) (loc_of_shr_record r1))
    as Hround.
  set (m2 := round_nearest_even (shr_m r1) (loc_of_shr_record r1)) in *.
  assert (0 <= m2 /\ Zdigits2 m2 + e1 <= B + 1) as [Hm2 Hmag2].
  { split; [lia|]. destruct H1 as [[-> ->]|[Hlt ->]].
    - subst m2. cbn. cbn in Hmag. lia.
    - assert (Zdigits2 m2 <= 54); [|lia].
      apply Zdigits2_le; [lia|]. change (2 ^ 54) with (2 * 2 ^ 53). lia. }
  destruct (shr_fexp 53 1024 m2 e1 loc_Exact) as [r3 e3] eqn:H3.
  apply shr_fexp_cases in H3 as [Hr3 H3]; [|done].
  assert (Zdigits2 (shr_m r3) + e3 <= B + 1) as Hmag3.
  { destruct H3 as [[-> ->]|[Hlt ->]]; [done|].
    assert (Zdigits2 (shr_m r3) <= 53); [|lia].
    apply Zdigits2_le; lia. }
  destruct (shr_m r3) as [|p|p]; [by left| |lia].
  right. exists p, e3. cbn [Zdigits2] in Hmag3.
  rewrite (proj2 (Z.leb_le _ _)) by lia. done.
Qed.

Lemma magnitude_value p e :
  Z.pos (digits2_pos p) + e <= 9 ->
  exists x, number_value (S754_finite false p e) = Some x
            /\ (0 <= x)%Q /\ (x < inject_Z (10 ^ 21))%Q.
Proof.
  intros Hmag. eexists. split; [reflexivity|].
  pose proof (digits2_pos_bounds p) as [_ Hp].
  destruct (0 <=? e) eqn:E.
  - apply Z.leb_le in E.
    assert (0 < 2 ^ e) as Hpos by (by apply Z.pow_pos_nonneg).
    assert (2 ^ Z.pos (digits2_pos p) * 2 ^ e <= 2 ^ 9) as Hle.
    { rewrite <- Z.pow_add_r by lia. apply Z.pow_le_mono_r; lia. }
    unfold Qle, Qlt. cbn. change (2 ^ 9) with 512 in Hle. nia.
  - apply Z.leb_gt in E.
    assert (0 < 2 ^ (- e)) as Hpos by (apply Z.pow_pos_nonneg; lia).
    assert (2 ^ Z.pos (digits2_pos p) <= 2 ^ 9 * 2 ^ (- e)) as Hle.
    { rewrite <- Z.pow_add_r by lia. apply Z.pow_le_mono_r; lia. }
    unfold Qle, Qlt. cbn. rewrite Z2Pos.id by done.
    change (2 ^ 9) with 512 in Hle. nia.
Qed.

(** For a confidence from 0 to 1 the product is a number from 0 to below
    10^21. *)
Lemma mul_hundred_in_range c cv :
  number_value c = Some cv -> (0 <= cv)%Q -> (cv <= 1)%Q ->
  exists x, number_value (number_mul c hundred) = Some x
            /\ (0 <= x)%Q /\ (x < inject_Z (10 ^ 21))%Q.
Proof.
  destruct c as [s|s| |s m e]; cbn [number_value]; try done.
  - intros _ _ _. by exists 0%Q.
  - intros [= <-] H0 H1.
    pose proof (digits2_pos_bounds m) as [Hlo Hhi].
    assert (s = false /\ Z.pos (digits2_pos m) + e <= 1) as [-> Hmag].
    { destruct (0 <=? e) eqn:E.
      - apply Z.leb_le in E.
        assert (0 < 2 ^ e) as Hpos by (by apply Z.pow_pos_nonneg).
        destruct s; unfold Qle in *; cbn in H0, H1; [nia|].
        split; [done|].
        assert (Z.pos m = 1 /\ 2 ^ e = 1) as [Hm He] by nia.
        assert (e = 0).
        { destruct (Z.eq_dec e 0) as [|Hne]; [done|].
          assert (2 ^ 1 <= 2 ^ e) by (apply Z.pow_le_mono_r; lia).
          change (2 ^ 1) with 2 in *. lia. }
        assert (m = 1%positive) as -> by lia. subst e. cbn. lia.
      - apply Z.leb_gt in E.
        assert (0 < 2 ^ (- e)) as Hpos by (apply Z.pow_pos_nonneg; lia).
        destruct s; unfold Qle in *; cbn in H0, H1;
          rewrite ?Z2Pos.id in * by done; [lia|].
        split; [done|].
        assert (2 ^ (Z.pos (digits2_pos m) - 1) < 2 ^ (- e + 1)) as Hlt.
        { rewrite (Z.pow_add_r 2 (- e) 1) by lia. change (2 ^ 1) with 2. lia. }
        apply Z.pow_lt_mono_r_iff in Hlt; lia. }
    unfold number_mul, hundred. cbn [SFmul xorb].
    destruct (binary_round_aux_magnitude (m * 7036874417766400) (e + -46) 8)
      as [->|(m' & e' & -> & Hmag')]; [lia| |by exists 0%Q|].
    + assert (Zdigits2 (Z.pos (m * 7036874417766400))
              <= Z.pos (digits2_pos m) + 53); [|lia].
      apply Zdigits2_le; [lia|]. rewrite Z.pow_add_r by lia.
      rewrite Pos2Z.inj_mul.
      assert (7036874417766400 < 2 ^ 53) by (by vm_compute). nia.
    + by apply magnitude_value.
Qed.

(** Every rational has a nearest integer, the larger one of two. *)
Lemma nearest_integer (x : Q) :
  exists n, (inject_Z n - (1 # 2) <= x)%Q /\ (x < inject_Z n + (1 # 2))%Q.
Proof.
  destruct x as [a b]. exists ((2 * a + Z.pos b) / (2 * Z.pos b)).
  assert (2 * a + Z.pos b
          = 2 * Z.pos b * ((2 * a + Z.pos b) / (2 * Z.pos b))
            + (2 * a + Z.pos b) mod (2 * Z.pos b)) as Hdm
    by (apply Z.div_mod; lia).
  assert (0 <= (2 * a + Z.pos b) mod (2 * Z.pos b) < 2 * Z.pos b) as Hmod
    by (apply Z.mod_pos_bound; lia).
  unfold Qle, Qlt. cbn.
  set (n := (2 * a + Z.pos b) / (2 * Z.pos b)) in *.
  set (r := (2 * a + Z.pos b) mod (2 * Z.pos b)) in *.
  clearbody n r. nia.
Qed.

End Binary64.

(** The constants are the binary64 numbers their literals denote:
    [conf_0_93] lies within half a unit in the last place of 93/100, [hundred]
    and [one] are 100 and 1, and all are in canonical form. *)
Lemma literals_denote :
  (exists x, number_value conf_0_93 = Some x
             /\ ((93 # 100) - (1 # 2 ^ 54) < x)%Q
             /\ (x < (93 # 100) + (1 # 2 ^ 54))%Q)
  /\ (exists x, number_value hundred = Some x /\ (x == 100)%Q)
  /\ (exists x, number_value one = Some x /\ (x == 1)%Q)
  /\ forallb (valid_binary 53 1024) [conf_0_93; hundred; one; zero] = true.
Proof.
  repeat split; try (eexists; split; [reflexivity|]; repeat split);
    reflexivity.
Qed.

(** * The claims *)

(** C1, as stated, fails: for the valid input [tomato] and the reply
    ["CAUSE: "] the pattern matches with the blank as its capture, and the
    cause field is the empty string. *)
Lemma empty_field_counterexample :
  valid_DetectionInput tomato = true
  /\ exists a,
       generateCropAdvice no_toString (fun _ => Ok (VString (lit "CAUSE: ")))
         now0 tomato = Ok a
       /\ cause a = [].
Proof. split; [by vm_compute|]. eexists. split; by vm_compute. Qed.

(** C1, amended. For every input and every reply text, generating advice
    succeeds and each of the six fields is a string, which the field's
    pattern decides. When the pattern finds no match, which is when the label
    occurs nowhere in the reply or at its very end only, the field is the
    field's fallback string, which is not empty. Otherwise the field is the
    trimmed form of the text [c] the pattern captures: a non-empty piece of
    the reply that comes after the first occurrence of the label and the
    white space following it, running from the first character that is not
    white space to the first boundary (or, after a label followed by white
    space only, the last character of the reply); such a field is the empty
    string exactly when [c] is white space only. *)
Theorem advice_fields_fallback_or_extracted (nts : number -> jsstring)
  (ai : Provider) (now : jsstring) (d : DetectionInput) (text : jsstring) :
  ai (request_of nts d) = Ok (VString text) ->
  exists a, generateCropAdvice nts ai now d = Ok a
    /\ forall f,
         (exec (pattern f) text = None
          /\ get f a = fallback f /\ fallback f <> []
          /\ (after_label (label f) text = None
              \/ after_label (label f) text = Some []))
         \/ (exists c,
               exec (pattern f) text = Some (Some c)
               /\ get f a = trim c /\ c <> []
               /\ (exists T ws suf,
                     after_label (label f) text = Some T
                     /\ T = ws ++ c ++ suf /\ forallb is_space ws = true
                     /\ if has_content T then c = section_text f T
                        else suf = [] /\ length c = 1%nat)
               /\ (get f a = [] <-> forallb is_space c = true)).
Proof.
  intros Hai. eexists. split; [by apply generate_string|]. intros f.
  assert (get f {| cause := extract Cause text;
                   symptoms := extract Symptoms text;
                   immediate := extract Immediate text;
                   chemical := extract Chemical text;
                   organic := extract Organic text;
                   prevention := extract Prevention text;
                   metadata := Some (metadata_of d now) |} = extract f text)
    as -> by (by destruct f).
  rewrite pattern_shape, exec_section. unfold extract.
  pose proof (find_section_cases f text) as Hcases.
  destruct (find_section _ _ text) as [c|].
  - right. destruct Hcases as (Hc & HT). exists c.
    split; [done|]. split; [done|]. split; [done|]. split; [done|].
    apply trim_nil.
  - left. split; [done|]. split; [done|]. split; [by destruct f|done].
Qed.

(** The theorem at the reply of the counterexample. *)
Lemma advice_fields_fallback_or_extracted_witness :
  (fun _ : Request => Ok (VString (lit "CAUSE: "))) (request_of no_toString tomato)
  = Ok (VString (lit "CAUSE: "))
  /\ exists a,
       generateCropAdvice no_toString (fun _ => Ok (VString (lit "CAUSE: ")))
         now0 tomato = Ok a
       /\ forall f,
            (exec (pattern f) (lit "CAUSE: ") = None
             /\ get f a = fallback f /\ fallback f <> []
             /\ (after_label (label f) (lit "CAUSE: ") = None
                 \/ after_label (label f) (lit "CAUSE: ") = Some []))
            \/ (exists c,
                  exec (pattern f) (lit "CAUSE: ") = Some (Some c)
                  /\ get f a = trim c /\ c <> []
                  /\ (exists T ws suf,
                        after_label (label f) (lit "CAUSE: ") = Some T
                        /\ T = ws ++ c ++ suf /\ forallb is_space ws = true
                        /\ if has_content T then c = section_text f T
                           else suf = [] /\ length c = 1%nat)
                  /\ (get f a = [] <-> forallb is_space c = true)).
Proof.
  split; [reflexivity|].
  apply (advice_fields_fallback_or_extracted no_toString
           (fun _ => Ok (VString (lit "CAUSE: "))) now0 tomato (lit "CAUSE: ")).
  reflexivity.
Defined.

(** C2, as stated, fails: the error thrown for an upstream failure with
    status 429 has no status and is a plain [Error]; and an upstream failure
    whose message is ["Failed to parse AI response"] gives the very error
    that a reply without text gives. *)
Lemma status_and_kind_counterexample :
  (exists e,
     generateCropAdvice no_toString (fun _ => Throw quota_error) now0 tomato
     = Throw e
     /\ status quota_error = Some 429 /\ status e <> Some 429
     /\ name e = lit "Error")
  /\ generateCropAdvice no_toString
       (fun _ => Throw (Error (lit "Failed to parse AI response"))) now0 tomato
     = generateCropAdvice no_toString (fun _ => Ok VUndefined) now0 tomato.
Proof. split; [eexists; split; [by vm_compute|done]|by vm_compute]. Qed.

(** C2, amended. When the external call fails, generating advice fails with
    a plain [Error] whose message is ["Failed to generate advice from Gemini
    AI: "] followed by the message of the cause; it has no status. When the
    reply has no text to parse, it fails with the same kind of error, the
    message of the parse failure after the same prefix. For a reply text it
    succeeds. *)
Theorem generation_failure_is_plain_error (nts : number -> jsstring)
  (ai : Provider) (now : jsstring) (d : DetectionInput) :
  match ai (request_of nts d) with
  | Throw cause =>
      generateCropAdvice nts ai now d =
      Throw (Error (lit "Failed to generate advice from Gemini AI: "
                    ++ ToString (message cause)))
  | Ok VUndefined | Ok VNull =>
      generateCropAdvice nts ai now d =
      Throw (Error (lit "Failed to generate advice from Gemini AI: "
                    ++ lit "Failed to parse AI response"))
  | Ok (VString _) => exists a, generateCropAdvice nts ai now d = Ok a
  end.
Proof.
  destruct (ai (request_of nts d)) as [[| |text]|cause] eqn:Hai.
  - unfold generateCropAdvice. fold (request_of nts d). by rewrite Hai.
  - unfold generateCropAdvice. fold (request_of nts d). by rewrite Hai.
  - eexists. by apply generate_string.
  - unfold generateCropAdvice. fold (request_of nts d). by rewrite Hai.
Qed.

(** C3, as stated, fails: in a batch whose second item fails, the error of
    the batch is the very error the single operation throws for that item, a
    plain [Error]; nothing wraps it. *)
Lemma batch_error_not_wrapped_counterexample :
  exists e,
    generateCropAdvice no_toString (second_fails 1) now0 potato = Throw e
    /\ generateBatchAdvice no_toString second_fails (fun _ => now0)
         [0; 1]%nat [tomato; potato] = Some (Throw e)
    /\ e = Error (lit "Failed to generate advice from Gemini AI: quota exceeded").
Proof. eexists. split; [by vm_compute|]. split; by vm_compute. Qed.

(** C3, amended. As soon as one of the calls of a batch that have completed
    has failed, whether or not the other calls have completed, the batch
    fails: its error is the error of the first item to fail, in the order in
    which the calls complete, exactly as the single operation threw it,
    without a wrapper; what the other items give is dropped. And at no
    moment, whichever calls have completed, does such a batch return a
    list. *)
Theorem batch_fails_with_first_failure (nts : number -> jsstring)
  (ai : nat -> Provider) (clock : nat -> jsstring) (order : list nat)
  (ds : list DetectionInput) :
  NoDup order ->
  (forall j, j ∈ order -> (j < length ds)%nat) ->
  (exists i d e, i ∈ order /\ ds !! i = Some d
     /\ generateCropAdvice nts (ai i) (clock i) d = Throw e) ->
  (exists pre i post d e,
     order = pre ++ i :: post
     /\ (forall j, j ∈ pre ->
           exists dj a, ds !! j = Some dj
             /\ generateCropAdvice nts (ai j) (clock j) dj = Ok a)
     /\ ds !! i = Some d
     /\ generateCropAdvice nts (ai i) (clock i) d = Throw e
     /\ generateBatchAdvice nts ai clock order ds = Some (Throw e))
  /\ (forall completed out,
        NoDup completed ->
        (forall j, j ∈ completed -> (j < length ds)%nat) ->
        generateBatchAdvice nts ai clock completed ds <> Some (Ok out)).
Proof.
  intros Hnd Hrange (i & d & e & Hin & Hd & He). unfold generateBatchAdvice.
  set (ps := imap _ ds).
  assert (length ps = length ds) as Hlen by apply length_imap.
  assert (forall j r, ps !! j = Some r ->
            exists dj, ds !! j = Some dj
              /\ r = generateCropAdvice nts (ai j) (clock j) dj) as Hps.
  { intros j r Hj. unfold ps in Hj. rewrite batch_promise_lookup in Hj.
    destruct (ds !! j) as [dj|]; [|done]. cbn in Hj. simplify_eq. eauto. }
  assert (ps !! i = Some (Throw e)) as Hi.
  { unfold ps. by rewrite batch_promise_lookup, Hd, <- He. }
  split.
  - destruct (first_rejection ps order i e)
      as (pre & i' & post & e' & -> & Hpre & Hi'); [done|done| |].
    { intros j Hj. apply lookup_lt_is_Some_2. rewrite Hlen. by apply Hrange. }
    destruct (Hps _ _ Hi') as (d' & Hd' & He').
    exists pre, i', post, d', e'. split; [done|]. split; [|split; [done|split]].
    + intros j Hj. destruct (Hpre j Hj) as (x & Hx).
      destruct (Hps _ _ Hx) as (dj & Hdj & Hr). eauto.
    + done.
    + apply Promise_all_rejected; [|done|done].
      by apply NoDup_app in Hnd as [? _].
  - intros completed out Hnd' Hrange'.
    apply (Promise_all_no_list ps completed i e); [done| |done].
    intros j Hj. rewrite Hlen. by apply Hrange'.
Qed.

(** The theorem at the batch of the counterexample, when the second call
    has failed and the first has not completed. *)
Lemma batch_fails_with_first_failure_witness :
  (exists pre i post d e,
     [1]%nat = pre ++ i :: post
     /\ (forall j, j ∈ pre ->
           exists dj a, [tomato; potato] !! j = Some dj
             /\ generateCropAdvice no_toString (second_fails j) now0 dj = Ok a)
     /\ [tomato; potato] !! i = Some d
     /\ generateCropAdvice no_toString (second_fails i) now0 d = Throw e
     /\ generateBatchAdvice no_toString second_fails (fun _ => now0)
          [1]%nat [tomato; potato] = Some (Throw e))
  /\ (forall completed out,
        NoDup completed ->
        (forall j, j ∈ completed -> (j < length [tomato; potato])%nat) ->
        generateBatchAdvice no_toString second_fails (fun _ => now0)
          completed [tomato; potato] <> Some (Ok out)).
Proof.
  apply (batch_fails_with_first_failure no_toString second_fails
           (fun _ => now0) [1]%nat [tomato; potato]).
  - apply NoDup_cons. split; [apply not_elem_of_nil|apply NoDup_nil_2].
  - intros j Hj. apply list_elem_of_singleton in Hj as ->. simpl. lia.
  - exists 1%nat, potato. eexists. split; [by apply list_elem_of_singleton|].
    split; [reflexivity|]. vm_compute; reflexivity.
Defined.

(** C4, as stated, fails: in [ce_blank_line] the six labels come in order
    with content between them, and the text between ["CAUSE:"] and the next
    boundary, the blank line right after the label, is empty; the pattern
    skips that blank line as white space and returns the paragraph after
    it. *)
Lemma blank_line_after_label_counterexample :
  six_labels_in_order ce_blank_line = true
  /\ spec_extract Cause ce_blank_line = Some []
  /\ exists a, parseAdviceResponse (VString ce_blank_line) = Ok a
               /\ cause a = lit "Fungus in the soil"
               /\ Some (get Cause a) <> spec_extract Cause ce_blank_line.
Proof.
  split; [by vm_compute|]. split; [by vm_compute|].
  eexists. split; [by vm_compute|]. split; [by vm_compute|].
  by vm_compute.
Qed.

(** C4, amended. For every reply text that holds the six labels in order
    with content between them, parsing returns for each field the text from
    the first character after the label's first occurrence that is not white
    space, up to the first boundary after that character (blank line, the
    next label, end of text), trimmed: white space right after the label,
    blank lines included, is skipped first. That is the text between the
    label and the next boundary whenever this text is not blank. *)
Theorem sections_extracted (text : jsstring) :
  six_labels_in_order text = true ->
  exists a, parseAdviceResponse (VString text) = Ok a
    /\ forall f, exists T,
         after_label (label f) text = Some T
         /\ get f a = trim (section_text f T)
         /\ (has_content (spec_section_text f T) = true
             -> Some (get f a) = spec_extract f text).
Proof.
  intros Hsix. destruct (parse_string_fields text) as (a & Ha & _ & Hf).
  exists a. split; [done|]. intros f.
  destruct (six_labels_each text f Hsix) as (T & HT & Hc).
  exists T. rewrite Hf. split; [done|]. split.
  - by apply extract_section.
  - intros Hs. by apply (extract_agrees_with_spec f text T).
Qed.

(** The theorem at [reply_six]. *)
Lemma sections_extracted_witness :
  six_labels_in_order reply_six = true
  /\ exists a, parseAdviceResponse (VString reply_six) = Ok a
       /\ forall f, exists T,
            after_label (label f) reply_six = Some T
            /\ get f a = trim (section_text f T)
            /\ (has_content (spec_section_text f T) = true
                -> Some (get f a) = spec_extract f reply_six).
Proof.
  split; [vm_compute; reflexivity|].
  apply (sections_extracted reply_six). vm_compute; reflexivity.
Defined.

(** C5. Parsing a string never throws, whether or not a label's pattern is
    found; parsing throws exactly when the text operation itself does, which
    is when the input is [undefined] or [null] and not a string, and what it
    throws then is the error ["Failed to parse AI response"]. *)
Theorem parse_throws_iff_not_string (v : value) :
  ((exists e, parseAdviceResponse v = Throw e)
   <-> (exists e, str_match v causeRe = Throw e))
  /\ ((exists e, parseAdviceResponse v = Throw e)
      <-> v = VUndefined \/ v = VNull)
  /\ (forall s, v = VString s -> exists a, parseAdviceResponse v = Ok a)
  /\ (forall e, parseAdviceResponse v = Throw e
                -> e = Error (lit "Failed to parse AI response")).
Proof.
  destruct v as [| |s].
  - rewrite parse_not_string by done. cbn [str_match].
    repeat split; intros; simplify_eq; eauto.
  - rewrite parse_not_string by done. cbn [str_match].
    repeat split; intros; simplify_eq; eauto.
  - rewrite parse_string. cbn [str_match]. repeat split; intros; simplify_eq; eauto;
      try (by destruct_or?; destruct_and?; simplify_eq);
      by repeat match goal with H : exists _, _ |- _ => destruct H end.
Qed.

(** C6. When every item of a batch is generated successfully, the batch
    returns one advice per input, the [i]-th being the advice generated for
    the [i]-th input, in whatever order the calls complete. *)
Theorem batch_preserves_order (nts : number -> jsstring)
  (ai : nat -> Provider) (clock : nat -> jsstring) (order : list nat)
  (ds : list DetectionInput) :
  order ≡ₚ seq 0 (length ds) ->
  (forall i d, ds !! i = Some d ->
     exists a, generateCropAdvice nts (ai i) (clock i) d = Ok a) ->
  exists out,
    generateBatchAdvice nts ai clock order ds = Some (Ok out)
    /\ length out = length ds
    /\ forall i d, ds !! i = Some d ->
         exists a, out !! i = Some a
                   /\ generateCropAdvice nts (ai i) (clock i) d = Ok a.
Proof.
  intros Hperm Hok. unfold generateBatchAdvice.
  set (ps := imap _ ds).
  assert (length ps = length ds) as Hlen by apply length_imap.
  destruct (Promise_all_fulfilled ps order) as (out & Hout & Hps).
  - by rewrite Hlen.
  - intros j r Hj. unfold ps in Hj. rewrite batch_promise_lookup in Hj.
    destruct (ds !! j) as [d|] eqn:Hd; [|done]. cbn in Hj. simplify_eq.
    destruct (Hok _ _ Hd) as (a & ->). eauto.
  - exists out. split; [done|]. split.
    + by rewrite <- Hlen, Hps, length_fmap.
    + intros i d Hd.
      assert (ps !! i = Some (generateCropAdvice nts (ai i) (clock i) d)) as Hi.
      { unfold ps. by rewrite batch_promise_lookup, Hd. }
      rewrite Hps, list_lookup_fmap in Hi.
      destruct (out !! i) as [a|]; [|done]. cbn in Hi. simplify_eq. eauto.
Qed.

(** The theorem at a batch of two whose second call completes first. *)
Lemma batch_preserves_order_witness :
  exists out,
    generateBatchAdvice no_toString (fun _ _ => Ok (VString reply_six))
      (fun _ => now0) [1; 0]%nat [tomato; potato] = Some (Ok out)
    /\ length out = 2%nat
    /\ forall i d, [tomato; potato] !! i = Some d ->
         exists a, out !! i = Some a
                   /\ generateCropAdvice no_toString
                        (fun _ => Ok (VString reply_six)) now0 d = Ok a.
Proof.
  apply (batch_preserves_order no_toString (fun _ _ => Ok (VString reply_six))
           (fun _ => now0) [1; 0]%nat [tomato; potato]).
  - apply perm_swap.
  - intros [|[|i]] d H; simpl in H; [| |discriminate];
      injection H as <-; eexists; vm_compute; reflexivity.
Defined.

(** C7. When a field's label occurs nowhere in the reply text (letter case
    aside), the field of the parse result is that field's fallback string;
    with no ["CHEMICAL:"] the chemical field is
    ["Consult local agriculture office"]. *)
Theorem absent_label_gives_fallback (text : jsstring) (f : field) :
  occurs_ci (label f) text = false ->
  exists a, parseAdviceResponse (VString text) = Ok a
            /\ get f a = fallback f.
Proof.
  intros H. destruct (parse_string_fields text) as (a & Ha & _ & Hf).
  exists a. split; [done|]. rewrite Hf. unfold extract.
  by rewrite find_section_absent.
Qed.

(** The theorem at a reply with a cause section only. *)
Lemma absent_label_gives_fallback_witness :
  occurs_ci (lit "CHEMICAL:") (lit "CAUSE: Fungus in the soil") = false
  /\ exists a,
       parseAdviceResponse (VString (lit "CAUSE: Fungus in the soil")) = Ok a
       /\ chemical a = lit "Consult local agriculture office".
Proof.
  split; [reflexivity|].
  apply (absent_label_gives_fallback (lit "CAUSE: Fungus in the soil") Chemical).
  reflexivity.
Defined.

(** C8. The prompt shows the confidence as the whole number nearest to the
    product [confidence * 100] (the larger of two nearest ones), followed by
    the percent sign: for every confidence from 0 to 1 the product has a
    value [x], and the digits in the prompt are those of the integer [n]
    with [n - 1/2 <= x < n + 1/2]. Confidence 0.93 is shown as ["93%"] and
    confidence 0.0 as ["0%"]. *)
Theorem confidence_rendered_as_percent (nts : number -> jsstring) :
  (forall (d : DetectionInput) (c : Q),
     number_value (confidence d) = Some c -> (0 <= c)%Q -> (c <= 1)%Q ->
     exists (x : Q) (n : Z),
       number_value (number_mul (confidence d) hundred) = Some x
       /\ (inject_Z n - (1 # 2) <= x)%Q /\ (x < inject_Z n + (1 # 2))%Q
       /\ build_prompt nts d =
          prompt_head d ++ (decimal n ++ lit "%") ++ prompt_format)
  /\ confidence_percent nts conf_0_93 = lit "93%"
  /\ confidence_percent nts zero = lit "0%".
Proof.
  split; [|split; reflexivity].
  intros d c Hc H0 H1.
  destruct (mul_hundred_in_range _ _ Hc H0 H1) as (x & Hx & Hx0 & Hmax).
  destruct (nearest_integer x) as (n & Hlo & Hhi).
  exists x, n. split; [done|]. split; [done|]. split; [done|].
  rewrite build_prompt_head. unfold confidence_percent.
  by rewrite (toFixed0_nearest nts _ x n).
Qed.

(** The theorem at confidence 0.93. *)
Lemma confidence_rendered_as_percent_witness :
  exists (x : Q) (n : Z),
    number_value (number_mul conf_0_93 hundred) = Some x
    /\ (inject_Z n - (1 # 2) <= x)%Q /\ (x < inject_Z n + (1 # 2))%Q
    /\ build_prompt no_toString tomato =
       prompt_head tomato ++ (decimal n ++ lit "%") ++ prompt_format.
Proof.
  eapply (proj1 (confidence_rendered_as_percent no_toString) tomato).
  - vm_compute; reflexivity.
  - vm_compute; discriminate.
  - vm_compute; discriminate.
Defined.

(** C9. On every successful generation the advice carries a metadata block
    with the crop, disease, severity and confidence of the input unchanged,
    the clock reading as [generatedAt] and the model identifier
    ["gemini-2.5-flash"]. *)
Theorem metadata_carries_input (nts : number -> jsstring) (ai : Provider)
  (now : jsstring) (d : DetectionInput) (a : Advice) :
  generateCropAdvice nts ai now d = Ok a ->
  metadata a =
  Some {| md_crop := crop d; md_disease := disease d;
          md_severity := severity d; md_confidence := confidence d;
          generatedAt := now; model := lit "gemini-2.5-flash" |}.
Proof.
  intros H. destruct (generate_inv _ _ _ _ _ H) as (text & Hai).
  rewrite (generate_string _ _ _ _ _ Hai) in H. by simplify_eq.
Qed.

(** The theorem at the input of the end-to-end scenario. *)
Lemma metadata_carries_input_witness :
  generateCropAdvice no_toString (fun _ => Ok (VString reply_six)) now0 tomato
  = Ok tomato_advice
  /\ (md_crop <$> metadata tomato_advice) = Some (lit "Tomato")
  /\ (md_confidence <$> metadata tomato_advice) = Some conf_0_93.
Proof.
  assert (generateCropAdvice no_toString (fun _ => Ok (VString reply_six))
            now0 tomato = Ok tomato_advice) as H by (vm_compute; reflexivity).
  split; [exact H|].
  rewrite (metadata_carries_input _ _ _ _ _ H). split; reflexivity.
Defined.

(** C10. For every string, the empty one and text without any label
    included, [parseAdviceResponse] returns normally; the object it returns
    has the six fields [cause], [symptoms], [immediate], [chemical],
    [organic] and [prevention], each a string (here: what the field's pattern
    gives, [extract]), and nothing else. *)
Theorem parse_string_returns (text : jsstring) :
  exists a, parseAdviceResponse (VString text) = Ok a
            /\ metadata a = None
            /\ forall f, get f a = extract f text.
Proof. apply parse_string_fields. Qed.

(** * Further properties of the service and of its callers *)

(** ** Trimmed fields *)

Lemma skip_space_fix x s : is_space x = false -> skip_space (x :: s) = x :: s.
Proof. intros H. simpl. by rewrite H. Qed.

Lemma skip_space_idem s : skip_space (skip_space s) = skip_space s.
Proof.
  destruct (skip_space s) as [|x u] eqn:Hs; [done|].
  apply skip_space_fix. by apply skip_space_head in Hs.
Qed.

(** The trimmed text lies in the text, between white space. *)
Lemma trim_decompose s :
  exists ws1 ws2,
    forallb is_space ws1 = true /\ forallb is_space ws2 = true
    /\ s = ws1 ++ trim s ++ ws2.
Proof.
  destruct (skip_space_decompose s) as (ws1 & H1 & Hs).
  destruct (skip_space_decompose (rev (skip_space s))) as (ws2 & H2 & Hr).
  exists ws1, (rev ws2). split; [done|]. split; [by rewrite forallb_rev|].
  unfold trim. rewrite <- rev_app_distr, <- Hr, rev_involutive. done.
Qed.

Lemma trim_idem s : trim (trim s) = trim s.
Proof.
  unfold trim.
  destruct (skip_space_decompose (rev (skip_space s))) as (ws & Hws & Hr).
  set (v := skip_space (rev (skip_space s))) in *.
  assert (skip_space (rev v) = rev v) as ->.
  { destruct (rev v) as [|y w] eqn:Hv; [done|].
    apply skip_space_fix.
    apply (f_equal (@rev _)) in Hr. rewrite rev_involutive in Hr.
    rewrite rev_app_distr, Hv in Hr. simpl in Hr.
    by apply skip_space_head in Hr. }
  rewrite rev_involutive. unfold v. by rewrite skip_space_idem.
Qed.

(** X1. No field of a parsed reply has white space at its start or at its
    end: trimming a field again changes nothing, for a captured text and for
    a fallback string alike. *)
Theorem fields_are_trimmed (text : jsstring) (a : Advice) (f : field) :
  parseAdviceResponse (VString text) = Ok a ->
  trim (get f a) = get f a.
Proof.
  intros Ha. destruct (parse_string_fields text) as (a' & Ha' & _ & Hf).
  rewrite Ha in Ha'. injection Ha' as <-. rewrite Hf. unfold extract.
  destruct (find_section _ _ text); [apply trim_idem|]. by destruct f.
Qed.

Lemma fields_are_trimmed_witness :
  exists a, parseAdviceResponse (VString reply_six) = Ok a
            /\ trim (symptoms a) = symptoms a.
Proof.
  eexists. split; [vm_compute; reflexivity|].
  apply (fields_are_trimmed reply_six _ Symptoms). vm_compute; reflexivity.
Defined.

(** ** What a field never contains *)

Lemma capture_after_shape ls t c :
  capture_after ls t = Some c ->
  (exists x, c = [x])
  \/ (exists x u, c = x :: until_stop ls u /\ is_space x = false).
Proof.
  revert c. induction t as [|y t IH]; intros c; cbn [capture_after]; [done|].
  destruct (is_space y) eqn:Hy.
  - destruct (capture_after ls t) as [c'|] eqn:Hc; cbn [or_else].
    + intros [= <-]. by apply IH.
    + apply capture_after_none in Hc as ->. intros [= <-]. left.
      exists y. cbn [until_stop]. by rewrite at_boundary_nil.
  - intros [= <-]. right. by exists y, t.
Qed.

Lemma until_stop_no_stop ls u a b :
  until_stop ls u = a ++ b -> b <> [] ->
  at_boundary ls (drop (length a) u) = false
  /\ exists r, drop (length a) u = b ++ r.
Proof.
  revert a. induction u as [|x u IH]; intros a; cbn [until_stop].
  - rewrite at_boundary_nil. intros H Hb. by destruct a, b.
  - destruct (at_boundary ls (x :: u)) eqn:Hx.
    + intros H Hb. by destruct a, b.
    + destruct a as [|y a]; cbn [app length drop].
      * intros <- _. split; [done|].
        exists (drop (length (until_stop ls u)) u). cbn. f_equal.
        rewrite <- (until_stop_prefix ls u) at 1. by rewrite take_drop.
      * intros [= <- H] Hb. by apply IH.
Qed.

Lemma find_section_shape lbl ls t c :
  find_section lbl ls t = Some c ->
  (exists x, c = [x])
  \/ (exists x u, c = x :: until_stop ls u /\ is_space x = false).
Proof.
  induction t as [|y t IH]; cbn [find_section]; unfold match_here.
  - destruct (starts_ci lbl []); [|done]. by rewrite drop_nil.
  - destruct (starts_ci lbl (y :: t)).
    + destruct (capture_after ls _) as [c'|] eqn:Hc.
      * intros [= <-]. by apply capture_after_shape in Hc.
      * apply IH.
    + apply IH.
Qed.

Lemma starts_ci_app l b r : starts_ci l b = true -> starts_ci l (b ++ r) = true.
Proof.
  revert b. induction l as [|c l IH]; intros [|x b]; cbn; try done.
  intros [-> H]%andb_true_iff. by rewrite IH.
Qed.

Lemma blank_line_at_app b r :
  blank_line_at b = true -> blank_line_at (b ++ r) = true.
Proof. by destruct b as [|b1 [|b2 b]]. Qed.

(** A captured text holds no stop after its first character. *)
Lemma capture_no_stop f text c p b :
  find_section (label f) (stops f) text = Some c ->
  c = p ++ b -> p <> [] -> b <> [] ->
  blank_line_at b = false
  /\ forall l, next_label f = Some l -> starts_ci l b = false.
Proof.
  intros Hc Hpb Hp Hb.
  destruct (find_section_shape _ _ _ _ Hc) as [(x & ->)|(x & u & -> & Hx)].
  { destruct p as [|? [|]], b; done. }
  destruct p as [|y p]; [done|]. injection Hpb as <- Hw.
  destruct (until_stop_no_stop _ _ _ _ Hw Hb) as (Hnb & r & Hr).
  rewrite Hr, at_boundary_stops in Hnb.
  apply orb_false_iff in Hnb as [Hnb _].
  apply orb_false_iff in Hnb as [Hbl Hnl]. split.
  - destruct (blank_line_at b) eqn:E; [|done].
    by rewrite (blank_line_at_app _ r E) in Hbl.
  - intros l Hl. unfold next_label_at in Hnl. rewrite Hl in Hnl.
    destruct (starts_ci l b) eqn:E; [|done].
    by rewrite (starts_ci_app _ _ r E) in Hnl.
Qed.

Lemma literal_no_blank_line s pre suf :
  occurs_ci [LF; LF] s = false -> s <> pre ++ LF :: LF :: suf.
Proof.
  intros H ->. apply not_true_iff_false in H. apply H.
  apply occurs_ci_spec. by exists pre, [LF; LF], suf.
Qed.

(** X2. No field of a parsed reply contains a blank line, and a field
    contains the label its pattern stops at nowhere but at its very start:
    each field is one paragraph of its own section. *)
Theorem field_is_one_paragraph (text : jsstring) (a : Advice) (f : field) :
  parseAdviceResponse (VString text) = Ok a ->
  (forall pre suf, get f a <> pre ++ LF :: LF :: suf)
  /\ (forall l pre occ suf,
        next_label f = Some l -> get f a = pre ++ occ ++ suf ->
        map canonicalize occ = map canonicalize l -> pre = []).
Proof.
  intros Ha. destruct (parse_string_fields text) as (a' & Ha' & _ & Hf).
  rewrite Ha in Ha'. injection Ha' as <-. rewrite Hf. unfold extract.
  destruct (find_section _ _ text) as [c|] eqn:Hc.
  - destruct (trim_decompose c) as (ws1 & ws2 & H1 & H2 & Hdec). split.
    + intros pre suf Heq. rewrite Heq in Hdec.
      destruct (ws1 ++ pre) as [|y p] eqn:Hp.
      * apply app_eq_nil in Hp as [-> ->]. cbn in Hdec.
        destruct (find_section_shape _ _ _ _ Hc)
          as [(x & ->)|(x & u & -> & Hx)]; [done|].
        injection Hdec as -> _. done.
      * destruct (capture_no_stop f text c (y :: p) (LF :: LF :: suf ++ ws2))
          as [Hbl _]; try done.
        rewrite <- Hp, Hdec. by rewrite <- !app_assoc.
    + intros l pre occ suf Hl Heq Hocc. rewrite Heq in Hdec.
      assert (occ <> []) as Hne.
      { intros ->. by destruct f; cbn in Hl; simplify_eq; vm_compute in Hocc. }
      destruct (ws1 ++ pre) as [|y p] eqn:Hp.
      * by apply app_eq_nil in Hp as [_ ->].
      * destruct (capture_no_stop f text c (y :: p) (occ ++ suf ++ ws2))
          as [_ Hnl]; try done.
        -- rewrite <- Hp, Hdec. by rewrite <- !app_assoc.
        -- by destruct occ.
        -- specialize (Hnl l Hl). apply not_true_iff_false in Hnl.
           destruct Hnl. apply starts_ci_spec. by exists occ, (suf ++ ws2).
  - split.
    + intros pre suf. apply literal_no_blank_line. by destruct f.
    + intros l pre occ suf Hl Heq Hocc.
      assert (occurs_ci l (fallback f) = true) as Hin.
      { apply occurs_ci_spec. by exists pre, occ, suf. }
      by destruct f; cbn in Hl; simplify_eq; vm_compute in Hin.
Qed.

Lemma field_is_one_paragraph_witness :
  exists a, parseAdviceResponse (VString reply_six) = Ok a
    /\ (forall pre suf, get Cause a <> pre ++ LF :: LF :: suf)
    /\ (forall l pre occ suf,
          next_label Cause = Some l -> get Cause a = pre ++ occ ++ suf ->
          map canonicalize occ = map canonicalize l -> pre = []).
Proof.
  eexists. split; [vm_compute; reflexivity|].
  apply (field_is_one_paragraph reply_six _ Cause). vm_compute; reflexivity.
Defined.

(** ** Text in front of the first label *)

Lemma find_section_preamble l ls pre t :
  no_label_starts l pre t = true ->
  find_section l ls (pre ++ t) = find_section l ls t.
Proof.
  induction pre as [|x pre IH]; [done|].
  cbn [no_label_starts]. intros [Hx Hpre]%andb_true_iff.
  apply negb_true_iff in Hx. cbn [app find_section]. unfold match_here at 1.
  cbn [app] in Hx. rewrite Hx. by apply IH.
Qed.

(** X3. Text in front of a label's first occurrence does not change the
    label's field: when no occurrence of the label starts within the text
    put in front, the field parsed is the same with and without it. *)
Theorem preamble_is_ignored (pre text : jsstring) (f : field) :
  no_label_starts (label f) pre text = true ->
  exists a a',
    parseAdviceResponse (VString (pre ++ text)) = Ok a
    /\ parseAdviceResponse (VString text) = Ok a'
    /\ get f a = get f a'.
Proof.
  intros H.
  destruct (parse_string_fields (pre ++ text)) as (a & Ha & _ & Hf).
  destruct (parse_string_fields text) as (a' & Ha' & _ & Hf').
  exists a, a'. split; [done|]. split; [done|].
  rewrite Hf, Hf'. unfold extract. by rewrite find_section_preamble.
Qed.

Lemma preamble_is_ignored_witness :
  no_label_starts (label Cause) (lit "Here is the advice you asked for:
") reply_six = true
  /\ exists a a',
       parseAdviceResponse (VString (lit "Here is the advice you asked for:
" ++ reply_six)) = Ok a
       /\ parseAdviceResponse (VString reply_six) = Ok a'
       /\ get Cause a = get Cause a'.
Proof.
  split; [vm_compute; reflexivity|].
  apply (preamble_is_ignored _ reply_six Cause). vm_compute; reflexivity.
Defined.

(** ** A reply in the format the prompt asks for *)

Lemma starts_ci_refl l r : starts_ci l (l ++ r) = true.
Proof. induction l as [|c l IH]; cbn; [done|]. by rewrite N.eqb_refl. Qed.

Lemma after_label_here l r : after_label l (l ++ r) = Some r.
Proof.
  destruct l as [|c l]; [by destruct r|].
  cbn [app after_label]. change (c :: l ++ r) with ((c :: l) ++ r).
  by rewrite starts_ci_refl, drop_app_length.
Qed.

Lemma starts_ci_before_sep l a s b :
  sep_free l s = true -> starts_ci l (a ++ s :: b) = true ->
  starts_ci l a = true.
Proof.
  revert a. induction l as [|c l IH]; intros a; [done|].
  cbn [sep_free forallb]. intros [Hc Hl]%andb_true_iff.
  apply negb_true_iff in Hc.
  destruct a as [|x a]; cbn [app starts_ci].
  - by rewrite Hc.
  - intros [-> H]%andb_true_iff. by apply IH.
Qed.

Lemma occurs_ci_starts l a b :
  starts_ci l b = true -> occurs_ci l (a ++ b) = true.
Proof.
  intros H. induction a as [|x a IH]; cbn [app occurs_ci].
  - destruct b; cbn [occurs_ci]; by rewrite H.
  - rewrite IH. apply orb_true_r.
Qed.

(** A piece of text that holds no occurrence of the label, followed by a
    character the label does not have, is passed over. *)
Lemma after_label_skip l seg s rest :
  sep_free l s = true -> occurs_ci l seg = false ->
  after_label l (seg ++ s :: rest) = after_label l rest.
Proof.
  intros Hs. induction seg as [|x seg IH]; intros Ho.
  - cbn [app after_label].
    destruct (starts_ci l (s :: rest)) eqn:E; [|done].
    apply (starts_ci_before_sep l [] s rest Hs) in E.
    destruct l; [|done]. by destruct rest.
  - cbn [app after_label].
    destruct (starts_ci l (x :: seg ++ s :: rest)) eqn:E.
    + apply (starts_ci_before_sep l (x :: seg) s rest Hs) in E.
      cbn [occurs_ci] in Ho. by rewrite E in Ho.
    + apply IH. cbn [occurs_ci] in Ho. by apply orb_false_iff in Ho as [_ ?].
Qed.

Lemma skip_space_length s : (length (skip_space s) <= length s)%nat.
Proof.
  induction s as [|x s IH]; cbn; [done|]. destruct (is_space x); cbn; lia.
Qed.

Lemma trim_length s : (length (trim s) <= length (skip_space s))%nat.
Proof.
  unfold trim. rewrite length_rev.
  etrans; [apply skip_space_length|]. by rewrite length_rev.
Qed.

(** A trimmed text starts and ends with a character that is not white
    space. *)
Lemma trimmed_head x u : trim (x :: u) = x :: u -> is_space x = false.
Proof.
  intros H. destruct (is_space x) eqn:Hx; [|done].
  pose proof (trim_length (x :: u)) as Hl. rewrite H in Hl.
  cbn [skip_space] in Hl. rewrite Hx in Hl.
  pose proof (skip_space_length u). cbn in Hl. lia.
Qed.

Lemma trimmed_last u x : trim (u ++ [x]) = u ++ [x] -> is_space x = false.
Proof.
  unfold trim. intros H. apply (f_equal (@rev _)) in H.
  rewrite rev_involutive, rev_app_distr in H. cbn in H.
  by apply skip_space_head in H.
Qed.

Lemma spec_section_text_stop f w rest :
  (forall a b, w = a ++ b -> b <> [] ->
     blank_line_at (b ++ rest) = false /\ next_label_at f (b ++ rest) = false) ->
  rest = [] \/ blank_line_at rest = true ->
  spec_section_text f (w ++ rest) = w.
Proof.
  intros Hw Hrest. induction w as [|y w IH].
  - destruct Hrest as [->|Hb]; [done|].
    destruct rest as [|r rest]; [done|]. cbn [app spec_section_text].
    by rewrite Hb.
  - cbn [app spec_section_text].
    destruct (Hw [] (y :: w)) as [H1 H2]; [done|done|].
    cbn [app] in H1, H2. rewrite H1, H2. cbn [orb]. f_equal.
    apply IH. intros a b -> Hb. by apply (Hw (y :: a) b).
Qed.

Lemma after_label_skip_char l s rest :
  sep_free l s = true -> l <> [] ->
  after_label l (s :: rest) = after_label l rest.
Proof.
  intros Hs Hl. apply (after_label_skip l [] s rest Hs). by destruct l.
Qed.

Lemma plain_inv s :
  plain s = true ->
  s <> [] /\ trim s = s /\ occurs_ci [LF; LF] s = false
  /\ forall g, occurs_ci (label g) s = false.
Proof.
  unfold plain. intros [[[H1 H2]%andb_true_iff H3]%andb_true_iff H4]%andb_true_iff.
  apply negb_true_iff, bool_decide_eq_false in H1.
  apply bool_decide_eq_true in H2. apply negb_true_iff in H3.
  split; [done|]. split; [done|]. split; [done|].
  rewrite forallb_forall in H4. intros g. apply negb_true_iff, H4.
  apply list_elem_of_In. destruct g; repeat constructor.
Qed.

Lemma next_label_is_label f l :
  next_label f = Some l -> sep_free l LF = true /\ exists g, l = label g.
Proof.
  destruct f; intros [= <-]; (split; [by vm_compute|]).
  - by exists Symptoms.
  - by exists Immediate.
  - by exists Chemical.
  - by exists Organic.
  - by exists Prevention.
Qed.

(** After a label and a blank, a plain text up to a blank line or the end
    of the reply is taken whole. *)
Lemma plain_section f c rest :
  plain c = true -> rest = [] \/ (exists r, rest = LF :: LF :: r) ->
  section_text f (SP :: c ++ rest) = c
  /\ has_content (SP :: c ++ rest) = true.
Proof.
  intros (Hne & Htrim & Hbl & Hlab)%plain_inv Hrest.
  destruct c as [|x c]; [done|].
  pose proof (trimmed_head _ _ Htrim) as Hx.
  unfold section_text, has_content.
  cbn [app skip_space forallb]. change (is_space SP) with true. cbn match.
  rewrite Hx. split; [|done]. f_equal.
  apply spec_section_text_stop.
  - intros a b -> Hb. split.
    + destruct b as [|y1 [|y2 b]]; [done| |].
      * destruct Hrest as [->|(r & ->)]; [done|]. cbn [app blank_line_at].
        destruct (y1 =? LF) eqn:Ey; [|done]. apply N.eqb_eq in Ey as ->.
        by apply (trimmed_last (x :: a) LF) in Htrim.
      * cbn [app blank_line_at].
        destruct ((y1 =? LF) && (y2 =? LF)) eqn:E; [|done].
        apply andb_true_iff in E as [->%N.eqb_eq ->%N.eqb_eq].
        apply not_true_iff_false in Hbl. destruct Hbl.
        apply occurs_ci_spec. by exists (x :: a), [LF; LF], b.
    + unfold next_label_at. destruct (next_label f) as [l|] eqn:Hl; [|done].
      destruct (next_label_is_label _ _ Hl) as (Hsep & g & ->).
      destruct (starts_ci (label g) (b ++ rest)) eqn:E; [|done].
      assert (starts_ci (label g) b = true) as Hb'.
      { destruct Hrest as [->|(r & ->)]; [by rewrite app_nil_r in E|].
        by apply (starts_ci_before_sep _ _ LF (LF :: r)). }
      specialize (Hlab g). apply not_true_iff_false in Hlab. destruct Hlab.
      by apply (occurs_ci_starts _ (x :: a)).
  - destruct Hrest as [->|(r & ->)]; auto.
Qed.

(** Pass over the section of [g]: its label and the blank, its text and the
    blank line. *)
Local Ltac pass c g Hc :=
  rewrite (after_label_skip _ (label g) SP)
    by (vm_compute; reflexivity);
  rewrite (after_label_skip _ (c g) LF)
    by first [vm_compute; reflexivity | apply Hc];
  rewrite after_label_skip_char by (vm_compute; (reflexivity || done)).

Lemma after_label_render (c : field -> jsstring) (f : field) :
  (forall g, plain (c g) = true) ->
  exists rest,
    after_label (label f) (render_reply c) = Some (SP :: c f ++ rest)
    /\ (rest = [] \/ exists r, rest = LF :: LF :: r).
Proof.
  intros Hplain.
  assert (forall g h, occurs_ci (label g) (c h) = false) as Hc.
  { intros g h. by destruct (plain_inv _ (Hplain h)) as (_ & _ & _ & ?). }
  unfold render_reply. cbn [app].
  destruct f.
  - rewrite after_label_here. eexists. split; [done|]. right. by eexists.
  - pass c Cause Hc.
    rewrite after_label_here. eexists. split; [done|]. right. by eexists.
  - pass c Cause Hc. pass c Symptoms Hc.
    rewrite after_label_here. eexists. split; [done|]. right. by eexists.
  - pass c Cause Hc. pass c Symptoms Hc. pass c Immediate Hc.
    rewrite after_label_here. eexists. split; [done|]. right. by eexists.
  - pass c Cause Hc. pass c Symptoms Hc. pass c Immediate Hc.
    pass c Chemical Hc.
    rewrite after_label_here. eexists. split; [done|]. right. by eexists.
  - pass c Cause Hc. pass c Symptoms Hc. pass c Immediate Hc.
    pass c Chemical Hc. pass c Organic Hc.
    rewrite after_label_here. exists []. split; [by rewrite app_nil_r|].
    by left.
Qed.

(** The format the prompt spells out is [render_reply] of its hints. *)
Lemma prompt_format_is_rendered :
  prompt_format =
  lit ".

Provide concise, practical advice in the following exact format (keep each point to one short sentence):

" ++ render_reply prompt_hints ++ lit "

Keep the language simple and practical for farmers. Focus on actionable advice. If confidence is below 60%, mention a mild caution in the IMMEDIATE step.".
Proof. vm_compute. reflexivity. Qed.

(** X4. A reply written in the format the prompt asks for parses back to
    its six texts: when each text is plain (not empty, trimmed, without a
    blank line and without any of the six labels), every field of the
    parsed reply is the text of its section, and no fallback is used. *)
Theorem rendered_reply_parses_back (c : field -> jsstring) :
  (forall f, plain (c f) = true) ->
  parseAdviceResponse (VString (render_reply c)) =
  Ok {| cause := c Cause; symptoms := c Symptoms; immediate := c Immediate;
        chemical := c Chemical; organic := c Organic;
        prevention := c Prevention; metadata := None |}.
Proof.
  intros Hplain. rewrite parse_string.
  assert (forall f, extract f (render_reply c) = c f) as H.
  { intros f.
    destruct (after_label_render c f Hplain) as (rest & Hafter & Hrest).
    destruct (plain_section f (c f) rest (Hplain f) Hrest) as [Hsec Hcont].
    rewrite (extract_section f _ _ Hafter Hcont), Hsec.
    by destruct (plain_inv _ (Hplain f)) as (_ & ? & _). }
  by rewrite !H.
Qed.

Lemma rendered_reply_parses_back_witness :
  parseAdviceResponse (VString (render_reply (fun f => get f tomato_advice))) =
  Ok {| cause := cause tomato_advice; symptoms := symptoms tomato_advice;
        immediate := immediate tomato_advice;
        chemical := chemical tomato_advice; organic := organic tomato_advice;
        prevention := prevention tomato_advice; metadata := None |}.
Proof.
  apply (rendered_reply_parses_back (fun f => get f tomato_advice)).
  intros []; vm_compute; reflexivity.
Defined.

(** ** The promise of a batch *)

Lemma settle_nothing {A} (order : list nat) (st : all_state A) :
  foldl (all_settle []) st order = st.
Proof.
  revert st. induction order as [|i order IH]; intros st; [done|].
  cbn. by rewrite IH.
Qed.

(** X5. The promise of a batch settles once and not before its time: as
    long as the calls that have completed all succeeded and some call has
    not completed, the batch is pending and no partial list is returned;
    and once the batch has a result, calls that complete later do not
    change it. An empty batch gives the empty list at once. *)
Theorem batch_settles_once (nts : number -> jsstring)
  (ai : nat -> Provider) (clock : nat -> jsstring)
  (ds : list DetectionInput) :
  (forall order,
     NoDup order -> (length order < length ds)%nat ->
     (forall i, i ∈ order ->
        exists d a, ds !! i = Some d
          /\ generateCropAdvice nts (ai i) (clock i) d = Ok a) ->
     generateBatchAdvice nts ai clock order ds = None)
  /\ (forall order more r,
        generateBatchAdvice nts ai clock order ds = Some r ->
        generateBatchAdvice nts ai clock (order ++ more) ds = Some r)
  /\ (forall order, generateBatchAdvice nts ai clock order [] = Some (Ok [])).
Proof.
  split; [|split].
  - intros order Hnd Hlen Hok. unfold generateBatchAdvice, Promise_all.
    set (ps := imap _ ds).
    destruct (all_inv_foldl ps order [] (all_init (length ps)))
      as (done' & Hd & _ & _ & Hs); [apply all_inv_init|done| |].
    + cbn. intros j Hj. destruct (Hok j Hj) as (d & a & Hd & Ha).
      exists a. unfold ps. by rewrite batch_promise_lookup, Hd, <- Ha.
    + rewrite Hs. cbn in Hd. rewrite decide_True; [done|].
      unfold ps. rewrite Hd, length_imap. done.
  - intros order more r. unfold generateBatchAdvice, Promise_all.
    rewrite foldl_app. apply settled_stable.
  - intros order. unfold generateBatchAdvice, Promise_all. cbn [imap length].
    by rewrite settle_nothing.
Qed.

Lemma batch_settles_once_witness :
  generateBatchAdvice no_toString (fun _ => replies_six) (fun _ => now0)
    [1%nat] [tomato; potato] = None
  /\ generateBatchAdvice no_toString second_fails (fun _ => now0)
       ([1; 0]%nat ++ [0%nat]) [tomato; potato]
     = generateBatchAdvice no_toString second_fails (fun _ => now0)
         [1; 0]%nat [tomato; potato].
Proof.
  split.
  - apply (proj1 (batch_settles_once no_toString (fun _ => replies_six)
                    (fun _ => now0) [tomato; potato]) [1%nat]).
    + apply NoDup_singleton.
    + simpl. lia.
    + intros i ->%list_elem_of_singleton. exists potato. eexists.
      split; [reflexivity|]. vm_compute; reflexivity.
  - assert (exists r, generateBatchAdvice no_toString second_fails
                        (fun _ => now0) [1; 0]%nat [tomato; potato] = Some r)
      as [r Hr] by (eexists; vm_compute; reflexivity).
    rewrite Hr.
    apply (proj1 (proj2 (batch_settles_once no_toString second_fails
                           (fun _ => now0) [tomato; potato]))
             [1; 0]%nat [0%nat] r Hr).
Defined.

(** ** The single route *)

Lemma generate_throw_inv nts ai now d e :
  generateCropAdvice nts ai now d = Throw e ->
  exists m, e = Error (lit "Failed to generate advice from Gemini AI: " ++ m).
Proof.
  unfold generateCropAdvice.
  destruct (ai _) as [[| |text]|cause]; cbn [mbind result_bind try_catch].
  - intros [= <-]. by eexists.
  - intros [= <-]. by eexists.
  - by rewrite parse_string.
  - intros [= <-]. by eexists.
Qed.

(** The checks of the single route, and what follows when they pass. *)
Lemma post_crop_advice_cases nts ai now body :
  ((post_crop_advice nts ai now body
    = send_error 400
        (lit "Missing required fields: crop and disease are required")
    \/ post_crop_advice nts ai now body
       = send_error 400 (lit "Confidence must be between 0 and 1"))
   /\ forall ai' now', post_crop_advice nts ai' now' body
                       = post_crop_advice nts ai now body)
  \/ (http_status (post_crop_advice nts ai now body) <> 400
      /\ truthy (body_crop body) = true /\ truthy (body_disease body) = true
      /\ (SFltb (to_number (body_confidence body)) zero
          || SFltb one (to_number (body_confidence body))) = false
      /\ forall ai' now',
           post_crop_advice nts ai' now' body =
           match generateCropAdvice nts ai' now' (service_input body) with
           | Ok advice => send_data advice
           | Throw error =>
               send_error 500
                 (text_or (message error)
                    (lit "Failed to generate crop advice"))
           end).
Proof.
  unfold post_crop_advice.
  destruct (negb (truthy (body_crop body)) || negb (truthy (body_disease body)))
    eqn:Hreq; [left; split; [by left|done]|].
  apply orb_false_iff in Hreq as [Hc%negb_false_iff Hd%negb_false_iff].
  destruct (_ && _) eqn:Hconf; [left; split; [by right|done]|]. right.
  split; [by destruct (generateCropAdvice _ _ _ _)|].
  split; [done|]. split; [done|]. split; [|done].
  by destruct (body_confidence body).
Qed.

(** X6. A request the single route answers with 400 never reaches the
    provider: the answer is the same whatever the provider and the clock
    are, it carries no advice, and its text is one of the two messages of
    the checks. *)
Theorem rejected_request_needs_no_provider (nts : number -> jsstring)
  (ai ai' : Provider) (now now' : jsstring) (body : AdviceBody) :
  http_status (post_crop_advice nts ai now body) = 400 ->
  post_crop_advice nts ai' now' body = post_crop_advice nts ai now body
  /\ res_data (post_crop_advice nts ai now body) = None
  /\ (res_error (post_crop_advice nts ai now body)
      = Some (lit "Missing required fields: crop and disease are required")
      \/ res_error (post_crop_advice nts ai now body)
         = Some (lit "Confidence must be between 0 and 1")).
Proof.
  intros H400.
  destruct (post_crop_advice_cases nts ai now body)
    as [[Hmsg Hsame]|[Hne _]]; [|done].
  split; [apply Hsame|].
  destruct Hmsg as [->| ->]; (split; [done|]); [by left|by right].
Qed.

Lemma rejected_request_needs_no_provider_witness :
  http_status (post_crop_advice no_toString replies_six now0 no_crop_body) = 400
  /\ post_crop_advice no_toString (fun _ => Throw quota_error) [] no_crop_body
     = post_crop_advice no_toString replies_six now0 no_crop_body.
Proof.
  split; [reflexivity|].
  apply (rejected_request_needs_no_provider no_toString replies_six
           (fun _ => Throw quota_error) now0 [] no_crop_body).
  reflexivity.
Defined.

Lemma checked_confidence c :
  (SFltb (to_number c) zero || SFltb one (to_number c)) = false ->
  (SFltb (number_or_zero c) zero || SFltb one (number_or_zero c)) = false
  /\ number_or_zero c <> S754_nan.
Proof. by destruct c as [| |[s|s| |s m e]]. Qed.

(** X7. For a body of the documented shape (crop, disease and severity a
    string, [null] or absent; confidence a number, [null] or absent), what
    the single route hands to the service passes the checks the service
    relies on: the crop and the disease are not empty, the confidence is
    neither below 0 nor above 1 and is never [NaN], and the severity is
    never empty. *)
Theorem accepted_input_is_valid (nts : number -> jsstring) (ai : Provider)
  (now : jsstring) (body : AdviceBody) :
  http_status (post_crop_advice nts ai now body) <> 400 ->
  valid_DetectionInput (service_input body) = true
  /\ confidence (service_input body) <> S754_nan
  /\ severity (service_input body) <> [].
Proof.
  intros H.
  destruct (post_crop_advice_cases nts ai now body)
    as [[[Hm|Hm] _]|(_ & Hc & Hd & Hconf & _)];
    [by rewrite Hm in H|by rewrite Hm in H|].
  destruct (checked_confidence _ Hconf) as [Hconf' Hnan].
  unfold valid_DetectionInput, service_input. cbn [crop disease confidence severity].
  rewrite Hconf'. split; [|split; [done|]].
  - destruct (body_crop body) as [| |[|]], (body_disease body) as [| |[|]];
      done.
  - by destruct (body_severity body) as [| |[|]].
Qed.

Lemma accepted_input_is_valid_witness :
  http_status (post_crop_advice no_toString replies_six now0 potato_body) <> 400
  /\ valid_DetectionInput (service_input potato_body) = true
  /\ confidence (service_input potato_body) <> S754_nan
  /\ severity (service_input potato_body) <> [].
Proof.
  assert (http_status (post_crop_advice no_toString replies_six now0
                         potato_body) <> 400) as H
    by (vm_compute; discriminate).
  split; [exact H|].
  exact (accepted_input_is_valid no_toString replies_six now0 potato_body H).
Defined.

(** X8. A request that leaves out the severity and the confidence is
    answered as the request that states the defaults: writing ["unknown"]
    for a missing or empty severity and 0 for a missing, [null], zero or
    [NaN] confidence changes no answer of the single route. *)
Theorem defaults_change_nothing (nts : number -> jsstring) (ai : Provider)
  (now : jsstring) (body : AdviceBody) :
  post_crop_advice nts ai now (with_defaults body)
  = post_crop_advice nts ai now body.
Proof.
  unfold post_crop_advice, with_defaults, service_input.
  cbn [body_crop body_disease body_severity body_confidence].
  destruct (_ || _); [done|].
  assert (text_or (VString (text_or (body_severity body) (lit "unknown")))
            (lit "unknown") = text_or (body_severity body) (lit "unknown"))
    as -> by (by destruct (body_severity body) as [| |[|]]).
  by destruct (body_confidence body) as [| |[s|s| |s m e]].
Qed.

(** A binary64 number that is neither below 0 nor above 1, with [NaN] and
    nothing read as 0, has a value from 0 to 1. *)
Lemma checked_confidence_value c :
  (SFltb (to_number c) zero || SFltb one (to_number c)) = false ->
  valid_binary 53 1024 (to_number c) = true ->
  exists v, number_value (number_or_zero c) = Some v
            /\ (0 <= v)%Q /\ (v <= 1)%Q.
Proof.
  destruct c as [| |[s|s| |s m e]]; cbn [to_number number_or_zero].
  - intros _ _; by exists 0%Q.
  - intros _ _; by exists 0%Q.
  - intros _ _; by exists 0%Q.
  - intros H. exfalso. destruct s; cbn in H; discriminate.
  - intros _ _; by exists 0%Q.
  - intros Hck Hvalid. apply orb_false_iff in Hck as [Hneg Hgt].
    destruct s; [cbn in Hneg; discriminate|].
    unfold SFltb in Hgt. cbn [SFcompare one] in Hgt.
    unfold valid_binary, bounded, canonical_mantissa, fexp, emin in Hvalid.
    apply andb_true_iff in Hvalid as [Hcan%Z.eqb_eq _].
    change (3 - 1024 - 53)%Z with (-1074)%Z in Hcan.
    pose proof (digits2_pos_bounds m) as [_ Hm].
    assert (e <= -52 /\ Z.pos m <= 2 ^ (- e))%Z as [He Hle].
    { destruct (Z.compare_spec (-52) e) as [<-|Hlt|Hlt]; [|done|].
      - split; [lia|].
        change (PosDef.Pos.compare_cont Eq 4503599627370496 m)
          with (Pos.compare 4503599627370496 m) in Hgt.
        destruct (Pos.compare_spec 4503599627370496 m) as [<-|Hlt|Hlt];
          [done|done|].
        apply Pos2Z.pos_lt_pos in Hlt.
        change (2 ^ (- -52))%Z with 4503599627370496%Z. lia.
      - split; [lia|].
        assert (Z.pos (digits2_pos m) <= 53)%Z as Hd by lia.
        assert (2 ^ Z.pos (digits2_pos m) <= 2 ^ (- e))%Z
          by (apply Z.pow_le_mono_r; lia).
        lia. }
    unfold number_value.
    destruct (0 <=? e)%Z eqn:E; [apply Z.leb_le in E; lia|].
    assert (0 < 2 ^ (- e))%Z as Hpos by (apply Z.pow_pos_nonneg; lia).
    eexists. split; [reflexivity|].
    unfold Qle. cbn [Qnum Qden]. rewrite Z2Pos.id by done. lia.
Qed.

(** X9. For every request the single route accepts, the prompt sent to the
    provider shows the confidence as a whole percentage: when the
    confidence of the body is a binary64 number (or absent or [null]), the
    product with 100 has a value [x] and the prompt holds the digits of the
    integer [n >= 0] nearest to it, followed by the percent sign; it never
    shows [NaN%]. *)
Theorem accepted_request_shows_percent (nts : number -> jsstring)
  (ai : Provider) (now : jsstring) (body : AdviceBody) :
  http_status (post_crop_advice nts ai now body) <> 400 ->
  valid_binary 53 1024 (to_number (body_confidence body)) = true ->
  exists (x : Q) (n : Z),
    number_value (number_mul (confidence (service_input body)) hundred)
    = Some x
    /\ (inject_Z n - (1 # 2) <= x)%Q /\ (x < inject_Z n + (1 # 2))%Q
    /\ (0 <= n)%Z
    /\ req_text (request_of nts (service_input body)) =
       prompt_head (service_input body) ++ (decimal n ++ lit "%")
       ++ prompt_format.
Proof.
  intros H Hvalid.
  destruct (post_crop_advice_cases nts ai now body)
    as [[[Hm|Hm] _]|(_ & _ & _ & Hconf & _)];
    [by rewrite Hm in H|by rewrite Hm in H|].
  destruct (checked_confidence_value _ Hconf Hvalid) as (v & Hv & Hv0 & Hv1).
  destruct (mul_hundred_in_range _ _ Hv Hv0 Hv1) as (x & Hx & Hx0 & Hmax).
  destruct (nearest_integer x) as (n & Hlo & Hhi).
  exists x, n. split; [done|]. split; [done|]. split; [done|]. split.
  - unfold Qle, Qlt in *. cbn in Hx0, Hhi. destruct x as [xn xd].
    cbn in Hx0, Hhi. nia.
  - cbn [request_of req_text]. rewrite build_prompt_head.
    unfold confidence_percent.
    by rewrite (toFixed0_nearest nts _ x n).
Qed.

Lemma accepted_request_shows_percent_witness :
  exists (x : Q) (n : Z),
    number_value (number_mul (confidence (service_input potato_body)) hundred)
    = Some x
    /\ (inject_Z n - (1 # 2) <= x)%Q /\ (x < inject_Z n + (1 # 2))%Q
    /\ (0 <= n)%Z
    /\ req_text (request_of no_toString (service_input potato_body)) =
       prompt_head (service_input potato_body) ++ (decimal n ++ lit "%")
       ++ prompt_format.
Proof.
  apply (accepted_request_shows_percent no_toString replies_six now0
           potato_body).
  - vm_compute; discriminate.
  - reflexivity.
Defined.

(** X10. For a body of the documented shape (crop, disease and severity a
    string, [null] or absent; confidence a number, [null] or absent) that
    the single route accepts, the answer follows the provider's reply to the
    one request sent: 200 with the parsed advice and its metadata when the
    reply is a text; otherwise 500 with the service's message, the cause's
    message (or the parse failure) after the service's prefix. For such a
    body the route's own default text is never sent. *)
Theorem accepted_request_outcome (nts : number -> jsstring) (ai : Provider)
  (now : jsstring) (body : AdviceBody) :
  http_status (post_crop_advice nts ai now body) <> 400 ->
  match ai (request_of nts (service_input body)) with
  | Ok (VString text) =>
      post_crop_advice nts ai now body =
      send_data
        {| cause := extract Cause text; symptoms := extract Symptoms text;
           immediate := extract Immediate text;
           chemical := extract Chemical text;
           organic := extract Organic text;
           prevention := extract Prevention text;
           metadata := Some (metadata_of (service_input body) now) |}
  | Ok VUndefined | Ok VNull =>
      post_crop_advice nts ai now body =
      send_error 500
        (lit "Failed to generate advice from Gemini AI: "
         ++ lit "Failed to parse AI response")
  | Throw cause =>
      post_crop_advice nts ai now body =
      send_error 500
        (lit "Failed to generate advice from Gemini AI: "
         ++ ToString (message cause))
  end.
Proof.
  intros H.
  destruct (post_crop_advice_cases nts ai now body)
    as [[[Hm|Hm] _]|(_ & _ & _ & _ & Hpost)];
    [by rewrite Hm in H|by rewrite Hm in H|].
  rewrite Hpost.
  destruct (ai (request_of nts (service_input body))) as [[| |text]|cause]
    eqn:Hai.
  - unfold generateCropAdvice. fold (request_of nts (service_input body)).
    by rewrite Hai.
  - unfold generateCropAdvice. fold (request_of nts (service_input body)).
    by rewrite Hai.
  - by rewrite (generate_string _ _ _ _ _ Hai).
  - unfold generateCropAdvice. fold (request_of nts (service_input body)).
    by rewrite Hai.
Qed.

Lemma accepted_request_outcome_witness :
  post_crop_advice no_toString (fun _ => Throw quota_error) now0 potato_body
  = send_error 500
      (lit "Failed to generate advice from Gemini AI: "
       ++ ToString (message quota_error)).
Proof.
  apply (accepted_request_outcome no_toString (fun _ => Throw quota_error)
           now0 potato_body).
  vm_compute; discriminate.
Defined.

(** ** The batch route *)

Lemma all_or_one_fails {A} (ps : list (result A)) :
  (forall j r, ps !! j = Some r -> exists x, r = Ok x)
  \/ (exists j e, ps !! j = Some (Throw e)).
Proof.
  induction ps as [|[x|e] ps IH].
  - left. intros j r Hj. by rewrite lookup_nil in Hj.
  - destruct IH as [IH|(j & e & Hj)].
    + left. intros [|j] r Hj; [|by apply (IH j)].
      cbn in Hj. simplify_eq. eauto.
    + right. by exists (S j), e.
  - right. by exists 0%nat, e.
Qed.

(** The checks of the batch route pass an accepted list on to the service. *)
Lemma accepted_batch nts ai clock order entries :
  entries <> [] ->
  (forall e, e ∈ entries ->
     truthy (entry_crop e) = true /\ truthy (entry_disease e) = true) ->
  post_crop_advice_batch nts ai clock order (Some entries) =
  match generateBatchAdvice nts ai clock order (map entry_input entries) with
  | None => None
  | Some (Ok adviceList) => Some (send_data adviceList)
  | Some (Throw error) =>
      Some (send_error 500
              (text_or (message error)
                 (lit "Failed to generate batch crop advice")))
  end.
Proof.
  intros Hne Hall. destruct entries as [|e0 entries]; [done|].
  cbn [post_crop_advice_batch].
  destruct (existsb _ (e0 :: entries)) eqn:Hex; [|done].
  apply existsb_exists in Hex as (e & He & Hbad).
  apply list_elem_of_In in He. destruct (Hall e He) as [Hc Hd].
  by rewrite Hc, Hd in Hbad.
Qed.

(** X11. A batch the route answers with 400 needs no call to the provider
    and no waiting: the answer is the same for every provider, clock and
    order of completion, it carries no advice, and it is sent exactly when
    the list is missing, not an array or empty, or when some entry lacks its
    crop or its disease. *)
Theorem rejected_batch_needs_no_provider (nts : number -> jsstring)
  (ai : nat -> Provider) (clock : nat -> jsstring) (order : list nat)
  (diseases : option (list Entry)) (r : Response (list Advice)) :
  post_crop_advice_batch nts ai clock order diseases = Some r ->
  http_status r = 400 ->
  (forall ai' clock' order',
     post_crop_advice_batch nts ai' clock' order' diseases = Some r)
  /\ res_data r = None
  /\ (diseases = None \/ diseases = Some []
      \/ exists entries e,
           diseases = Some entries /\ e ∈ entries
           /\ (truthy (entry_crop e) = false
               \/ truthy (entry_disease e) = false)).
Proof.
  destruct diseases as [[|e0 entries]|]; cbn [post_crop_advice_batch].
  - intros [= <-] _. auto.
  - destruct (existsb _ (e0 :: entries)) eqn:Hex.
    + intros [= <-] _. split; [done|]. split; [done|]. right. right.
      apply existsb_exists in Hex as (e & He & Hbad).
      exists (e0 :: entries), e. split; [done|].
      split; [by apply list_elem_of_In|].
      by destruct (truthy (entry_crop e)), (truthy (entry_disease e)); auto.
    + destruct (generateBatchAdvice _ _ _ _ _) as [[l|err]|]; [| |done];
        by intros [= <-].
  - intros [= <-] _. auto.
Qed.

Lemma rejected_batch_needs_no_provider_witness :
  post_crop_advice_batch no_toString (fun _ => replies_six) (fun _ => now0)
    [] (Some [tomato_entry; {| entry_crop := VNull;
                               entry_disease := VString (lit "Late Blight");
                               entry_severity := lit "high";
                               entry_confidence := zero |}])
  = Some (send_error 400
            (lit "Each disease entry must have crop and disease fields"))
  /\ forall ai' clock' order',
       post_crop_advice_batch no_toString ai' clock' order'
         (Some [tomato_entry; {| entry_crop := VNull;
                                 entry_disease := VString (lit "Late Blight");
                                 entry_severity := lit "high";
                                 entry_confidence := zero |}])
       = Some (send_error 400
                 (lit "Each disease entry must have crop and disease fields")).
Proof.
  split; [reflexivity|].
  apply (rejected_batch_needs_no_provider no_toString (fun _ => replies_six)
           (fun _ => now0) []); reflexivity.
Defined.

(** X12. For a batch of entries of the documented shape (crop and disease a
    string, [null] or absent; severity a string; confidence a number) that
    the route accepts, once every call has completed the answer is either
    200 with one advice per entry, the [i]-th generated for the [i]-th
    entry, or 500 with the message of the first call to fail in the order of
    completion (the service's prefix and the cause); never 400 and never a
    partial list. *)
Theorem accepted_batch_outcome (nts : number -> jsstring)
  (ai : nat -> Provider) (clock : nat -> jsstring) (order : list nat)
  (entries : list Entry) :
  entries <> [] ->
  (forall e, e ∈ entries ->
     truthy (entry_crop e) = true /\ truthy (entry_disease e) = true) ->
  order ≡ₚ seq 0 (length entries) ->
  (exists out,
     post_crop_advice_batch nts ai clock order (Some entries)
     = Some (send_data out)
     /\ length out = length entries
     /\ forall i e, entries !! i = Some e ->
          exists a, out !! i = Some a
            /\ generateCropAdvice nts (ai i) (clock i) (entry_input e) = Ok a)
  \/ (exists pre i post e m,
        order = pre ++ i :: post
        /\ (forall j, j ∈ pre ->
              exists ej a, entries !! j = Some ej
                /\ generateCropAdvice nts (ai j) (clock j) (entry_input ej)
                   = Ok a)
        /\ entries !! i = Some e
        /\ generateCropAdvice nts (ai i) (clock i) (entry_input e)
           = Throw (Error (lit "Failed to generate advice from Gemini AI: "
                           ++ m))
        /\ post_crop_advice_batch nts ai clock order (Some entries)
           = Some (send_error 500
                     (lit "Failed to generate advice from Gemini AI: " ++ m))).
Proof.
  intros Hne Hall Hperm. rewrite (accepted_batch _ _ _ _ _ Hne Hall).
  unfold generateBatchAdvice.
  set (ps := imap _ (map entry_input entries)).
  assert (length ps = length entries) as Hlen
    by (unfold ps; by rewrite length_imap, length_map).
  assert (forall j r, ps !! j = Some r ->
            exists ej, entries !! j = Some ej
              /\ r = generateCropAdvice nts (ai j) (clock j) (entry_input ej))
    as Hps.
  { intros j r Hj. unfold ps in Hj.
    rewrite batch_promise_lookup, list_lookup_fmap in Hj.
    destruct (entries !! j) as [ej|]; [|done]. cbn in Hj. simplify_eq. eauto. }
  assert (forall j ej, entries !! j = Some ej ->
            ps !! j = Some (generateCropAdvice nts (ai j) (clock j)
                              (entry_input ej))) as Hps'.
  { intros j ej Hj. unfold ps.
    by rewrite batch_promise_lookup, list_lookup_fmap, Hj. }
  destruct (all_or_one_fails ps) as [Hok|(k & err & Hk)].
  - left. destruct (Promise_all_fulfilled ps order) as (out & -> & Hout);
      [by rewrite Hlen|done|].
    exists out. split; [done|]. split.
    + by rewrite <- Hlen, Hout, length_fmap.
    + intros i e He. specialize (Hps' i e He).
      rewrite Hout, list_lookup_fmap in Hps'.
      destruct (out !! i) as [a|]; [|done]. cbn in Hps'. simplify_eq. eauto.
  - right.
    destruct (first_rejection ps order k err)
      as (pre & i & post & err' & -> & Hpre & Hi); [|done| |].
    { rewrite Hperm. apply elem_of_seq. apply lookup_lt_Some in Hk. lia. }
    { intros j Hj. rewrite Hperm in Hj. apply elem_of_seq in Hj.
      apply lookup_lt_is_Some_2. lia. }
    destruct (Hps _ _ Hi) as (e & He & Herr).
    destruct (generate_throw_inv _ _ _ _ _ (eq_sym Herr)) as (m & ->).
    exists pre, i, post, e, m. split; [done|]. split; [|split; [done|split]].
    + intros j Hj. destruct (Hpre j Hj) as (x & Hx).
      destruct (Hps _ _ Hx) as (ej & Hej & Hr). eauto.
    + done.
    + assert (NoDup (pre ++ i :: post)) as Hnd
        by (rewrite Hperm; apply NoDup_seq).
      apply NoDup_app in Hnd as [Hnd _].
      by rewrite (Promise_all_rejected ps pre i post _ Hnd Hpre Hi).
Qed.

Lemma accepted_batch_outcome_witness :
  (exists out,
     post_crop_advice_batch no_toString (fun _ => replies_six) (fun _ => now0)
       [1; 0]%nat (Some [tomato_entry; potato_entry])
     = Some (send_data out)
     /\ length out = length [tomato_entry; potato_entry]
     /\ forall i e, [tomato_entry; potato_entry] !! i = Some e ->
          exists a, out !! i = Some a
            /\ generateCropAdvice no_toString replies_six now0 (entry_input e)
               = Ok a)
  \/ (exists pre i post e m,
        [1; 0]%nat = pre ++ i :: post
        /\ (forall j, j ∈ pre ->
              exists ej a, [tomato_entry; potato_entry] !! j = Some ej
                /\ generateCropAdvice no_toString replies_six now0
                     (entry_input ej) = Ok a)
        /\ [tomato_entry; potato_entry] !! i = Some e
        /\ generateCropAdvice no_toString replies_six now0 (entry_input e)
           = Throw (Error (lit "Failed to generate advice from Gemini AI: "
                           ++ m))
        /\ post_crop_advice_batch no_toString (fun _ => replies_six)
             (fun _ => now0) [1; 0]%nat (Some [tomato_entry; potato_entry])
           = Some (send_error 500
                     (lit "Failed to generate advice from Gemini AI: " ++ m))).
Proof.
  apply (accepted_batch_outcome no_toString (fun _ => replies_six)
           (fun _ => now0) [1; 0]%nat [tomato_entry; potato_entry]).
  - discriminate.
  - intros e He. repeat (apply elem_of_cons in He as [->|He]);
      [by split|by split|by apply elem_of_nil in He].
  - apply perm_swap.
Defined.

(** X13. The two routes do not check the same things: an entry with its
    crop and its disease whose confidence is below 0 or above 1 is refused
    with 400 by the single route, whereas no batch whose entries all have
    their crop and disease is ever answered with 400, whatever the
    confidences are. *)
Theorem batch_route_skips_range_check (nts : number -> jsstring)
  (ai : Provider) (now : jsstring) (ais : nat -> Provider)
  (clock : nat -> jsstring) (order : list nat)
  (entries : list Entry) (e : Entry) :
  e ∈ entries ->
  (forall e', e' ∈ entries ->
     truthy (entry_crop e') = true /\ truthy (entry_disease e') = true) ->
  (SFltb (entry_confidence e) zero || SFltb one (entry_confidence e)) = true ->
  post_crop_advice nts ai now (entry_body e)
  = send_error 400 (lit "Confidence must be between 0 and 1")
  /\ forall r,
       post_crop_advice_batch nts ais clock order (Some entries) = Some r ->
       http_status r <> 400.
Proof.
  intros He Hall Hrange. destruct (Hall e He) as [Hc Hd]. split.
  - unfold post_crop_advice. cbn [entry_body body_crop body_disease
      body_confidence to_number]. by rewrite Hc, Hd, Hrange.
  - intros r.
    rewrite accepted_batch; [|by intros ->; apply elem_of_nil in He|done].
    destruct (generateBatchAdvice _ _ _ _ _) as [[l|err]|]; [| |done];
      by intros [= <-].
Qed.

Lemma batch_route_skips_range_check_witness :
  post_crop_advice no_toString replies_six now0 (entry_body overconfident_entry)
  = send_error 400 (lit "Confidence must be between 0 and 1")
  /\ forall r,
       post_crop_advice_batch no_toString (fun _ => replies_six)
         (fun _ => now0) [0; 1]%nat (Some [tomato_entry; overconfident_entry])
       = Some r ->
       http_status r <> 400.
Proof.
  apply (batch_route_skips_range_check no_toString replies_six now0
           (fun _ => replies_six) (fun _ => now0) [0; 1]%nat
           [tomato_entry; overconfident_entry] overconfident_entry).
  - apply elem_of_cons. right. apply elem_of_cons. by left.
  - intros e He. repeat (apply elem_of_cons in He as [->|He]);
      [by split|by split|by apply elem_of_nil in He].
  - reflexivity.
Defined.

(** ** The origins the server accepts *)

(** X14. The CORS check of the server accepts a request exactly when it
    has no origin, or its origin is one of the three fixed origins, or its
    origin is the one the environment names; every other origin is refused
    with the error [Not allowed by CORS]. An environment that names no
    origin adds nothing to the list, and the check never answers [false]. *)
Theorem cors_origin_allowed (CORS_ORIGIN origin : value) :
  (cors_origin CORS_ORIGIN origin = Ok true <->
   truthy origin = false
   \/ origin = VString (lit "http://localhost:5173")
   \/ origin = VString (lit "http://localhost:3000")
   \/ origin = VString (lit "https://swe-ai-crop.vercel.app")
   \/ origin = CORS_ORIGIN)
  /\ (cors_origin CORS_ORIGIN origin <> Ok true ->
      cors_origin CORS_ORIGIN origin
      = Throw (Error (lit "Not allowed by CORS")))
  /\ (truthy CORS_ORIGIN = false ->
      length (allowedOrigins CORS_ORIGIN) = 3%nat).
Proof.
  assert (origin ∈ allowedOrigins CORS_ORIGIN <->
          origin = VString (lit "http://localhost:5173")
          \/ origin = VString (lit "http://localhost:3000")
          \/ origin = VString (lit "https://swe-ai-crop.vercel.app")
          \/ (origin = CORS_ORIGIN /\ truthy CORS_ORIGIN = true)) as Hin.
  { unfold allowedOrigins. rewrite list_elem_of_In, filter_In.
    cbn [In]. split.
    - intros [Hor Ht].
      repeat (destruct Hor as [Hor|Hor]; [subst origin; auto|]). done.
    - intros [->|[->|[->|[-> Ht]]]]; (split; [auto 6|done]). }
  unfold cors_origin. destruct (truthy origin) eqn:Ht; cbn [negb].
  - case_bool_decide as Hmem.
    + split; [|split]; [| done |].
      * split; [|done]. intros _. apply Hin in Hmem. right. tauto.
      * intros Hf. unfold allowedOrigins. cbn. by rewrite Hf.
    + split; [|split]; [| done |].
      * split; [done|]. intros [?|H]; [done|]. destruct Hmem. apply Hin.
        destruct H as [?|[?|[?| ->]]]; auto.
      * intros Hf. unfold allowedOrigins. cbn. by rewrite Hf.
  - split; [|split]; [| done |].
    + split; auto.
    + intros Hf. unfold allowedOrigins. cbn. by rewrite Hf.
Qed.

Lemma cors_origin_allowed_witness :
  cors_origin VUndefined (VString (lit "https://example.org"))
  = Throw (Error (lit "Not allowed by CORS"))
  /\ length (allowedOrigins VUndefined) = 3%nat.
Proof.
  destruct (cors_origin_allowed VUndefined
              (VString (lit "https://example.org"))) as (_ & Hno & Hlen).
  split; [apply Hno; discriminate | apply Hlen; reflexivity].
Defined.
